(** * DowloadZip: the archive endpoint of [src/zipFile/zipfolder.js]

    The repository is one Express handler, [downloadZip], wired to
    [GET /downloadzip] in [src/index.js].  The handler is a straight line of
    calls on two objects (an archiver instance and the Express response) and
    three callbacks.  It is embedded here as a program in a small state and
    exception monad over a heap of archiver instances and a heap of response
    objects; JavaScript identifiers are looked up by name in the lexical
    environment of the place where they occur, so that an identifier that is
    bound nowhere raises [ReferenceError] exactly where the source would.

    [archiver], Express and Node's streams are third-party code.  Their part
    is a model of the behaviour their documentation fixes, kept apart from the
    handler in the sections marked "library".  The event loop is a list of
    stimuli ([Incoming], [Tick], [Close], [FsChange]); every run of a callback
    is one turn, and an exception that leaves a turn has escaped to the host
    process.  [run] is the component on its own: it records the escapes and
    goes on, so that the state of the component stays defined after one.
    [process] is the program as [index.js] starts it: no handler for uncaught
    exceptions is installed there, so the first escape ends the process.

    Three simplifications of the libraries are fixed here once.  The
    archiver scans the directory and reads the files when [directory] is
    called, so a request works on one snapshot of the directory.  A turn of
    the archiver handles one entry, and back-pressure from the response is
    not modelled.  The body of a response is kept record by record, and the
    number [pointer()] returns is kept as a count of payload bytes: the
    byte layout of the container and the deflated lengths are the
    library's.  The statements below say of that number only that it is
    zero for a new archive, that the close of a response leaves it as it
    is, and that the two log lines of a request carry the same one. *)

From Stdlib Require Import ZArith Ascii String List Lia.
From stdpp Require Import base tactics option list gmap strings.

Set Warnings "-register-all".
Local Open Scope string_scope.
Local Open Scope list_scope.
Local Open Scope Z_scope.

(** ** The file system the archiver reads *)

Definition bytes := list Byte.byte.

Inductive node :=
| File (readable : bool) (data : bytes)
| Dir (children : list (string * node)).

Definition dirlist := list (string * node).

Inductive fstat :=
| IsFile (readable : bool) (data : bytes)
| IsDirectory.

Fixpoint child (name : string) (d : dirlist) : option node :=
  match d with
  | [] => None
  | (n, k) :: d' => if String.eqb n name then Some k else child name d'
  end.

Fixpoint components (s : string) : list string :=
  match s with
  | EmptyString => [EmptyString]
  | String c s' =>
      if Ascii.eqb c "/" then EmptyString :: components s'
      else match components s' with
           | x :: xs => String c x :: xs
           | [] => [String c EmptyString]
           end
  end.

Definition path_components (s : string) : list string :=
  filter (fun x => x <> EmptyString) (components s).

(** What a path leads to: nothing, or the node at its end; a regular file
    on the way is where the walk stops. *)
Fixpoint locate (d : dirlist) (p : list string) : option node :=
  match p with
  | [] => Some (Dir d)
  | x :: p' =>
      match child x d with
      | Some (Dir kids) => locate kids p'
      | Some (File r data) => Some (File r data)
      | None => None
      end
  end.

Fixpoint ends_with_slash (s : string) : bool :=
  match s with
  | EmptyString => false
  | String c EmptyString => Ascii.eqb c "/"
  | String _ s' => ends_with_slash s'
  end.

Definition join_path (dir rel : string) : string :=
  if ends_with_slash dir then dir +:+ rel else dir +:+ "/" +:+ rel.

(** library (readdir-glob, as archiver's [directory] uses it): every node
    below the directory is matched, sub-directories before their contents,
    each under its path relative to the directory. *)
Fixpoint glob_node (rel : string) (n : node) : list (string * fstat) :=
  match n with
  | File r d => [(rel, IsFile r d)]
  | Dir kids =>
      (rel, IsDirectory) ::
      flat_map (fun nk => glob_node (rel +:+ "/" +:+ fst nk) (snd nk)) kids
  end.

Definition glob_dir (kids : dirlist) : list (string * fstat) :=
  flat_map (fun nk => glob_node (fst nk) (snd nk)) kids.

(** ** Archive stream *)

(** What the archiver puts on its readable side.  The deflate coder and the
    byte layout of the ZIP container belong to the library; a chunk is kept as
    the record it encodes. *)
Inductive chunk :=
| FileRecord (name : string) (data : bytes)
| DirRecord (name : string)
| CentralDirectory (names : list string)
| EntryHeader (name : string).

(** What a chunk adds to [pointer()], counted in payload bytes; the deflated
    length and the size of the headers are the library's. *)
Definition chunk_size (c : chunk) : Z :=
  match c with
  | FileRecord _ d => Z.of_nat (length d)
  | DirRecord _ => 0
  | CentralDirectory _ => 0
  | EntryHeader _ => 0
  end.

Inductive task :=
| Append (name source : string) (st : fstat)
| GlobFailure (message : string).

(** The second argument of [archive.directory]: [false], a string, or
    anything else. *)
Inductive destpath :=
| DestFalse
| DestString (s : string)
| DestOther.

Definition dest_prefix (dirpath : string) (d : destpath) : string :=
  match d with
  | DestFalse => EmptyString
  | DestString s => s
  | DestOther => dirpath
  end.

(** library (normalize-path, called with [stripTrailing = false]): every run
    of slashes and backslashes becomes one slash; a win32 namespace prefix
    keeps two. *)
Definition backslash : ascii := "092"%char.

Definition is_sep (c : ascii) : bool := Ascii.eqb c "/" || Ascii.eqb c backslash.

Fixpoint collapse (after_sep : bool) (s : string) : string :=
  match s with
  | EmptyString => EmptyString
  | String c s' =>
      if is_sep c
      then (if after_sep then collapse true s' else String "/" (collapse true s'))
      else String c (collapse false s')
  end.

Definition normalize_path (s : string) : string :=
  match s with
  | EmptyString => s
  | String c EmptyString => if is_sep c then "/" else s
  | String c0 (String c1 (String c2 (String c3 (String c4 s')))) =>
      if Ascii.eqb c0 backslash && Ascii.eqb c1 backslash &&
         (Ascii.eqb c2 "?" || Ascii.eqb c2 ".") && Ascii.eqb c3 backslash
      then "//" +:+ collapse false (String c2 (String c3 (String c4 s')))
      else collapse false s
  | _ => collapse false s
  end.

(** The class [\w] of a regular expression. *)
Definition is_word (c : ascii) : bool :=
  let n := nat_of_ascii c in
  ((48 <=? n) && (n <=? 57) || (65 <=? n) && (n <=? 90) ||
   (97 <=? n) && (n <=? 122) || (n =? 95))%nat.

(** What is left of [s] behind a match of [^\w+:], when there is one. *)
Fixpoint behind_drive (seen : bool) (s : string) : option string :=
  match s with
  | EmptyString => None
  | String c s' =>
      if is_word c then behind_drive true s'
      else if Ascii.eqb c ":" && seen then Some s'
      else None
  end.

(** [replace(/^(\.\.\/|\/)+/, '')]. *)
Definition starts_up (s : string) : bool :=
  match s with
  | String c0 (String c1 (String c2 _)) =>
      Ascii.eqb c0 "." && Ascii.eqb c1 "." && Ascii.eqb c2 "/"
  | _ => false
  end.

Fixpoint strip_up (s : string) : string :=
  match s with
  | EmptyString => s
  | String c s' =>
      if Ascii.eqb c "/" then strip_up s'
      else if starts_up s
           then match s' with
                | String _ (String _ s'') => strip_up s''
                | _ => s
                end
           else s
  end.

(** library (archiver's [sanitizePath]). *)
Definition sanitize_path (s : string) : string :=
  let n := normalize_path s in
  strip_up (match behind_drive false n with
            | Some rest => rest
            | None => n
            end).

Definition trailing_slash (s : string) : string :=
  if ends_with_slash s then s else s +:+ "/".

(** library (archiver): the name of an entry is its path below the prefix,
    sanitised; a directory gets a closing slash. *)
Definition entry_name (prefix rel : string) (st : fstat) : string :=
  let n := match prefix with
           | EmptyString => rel
           | _ => prefix +:+ "/" +:+ rel
           end in
  match st with
  | IsDirectory => trailing_slash (sanitize_path (trailing_slash n))
  | IsFile _ _ => sanitize_path n
  end.

(** The message of the failed [scandir].  Node names the path as the process
    resolves it; the place of the working directory is not part of the
    model, so the path stays relative to it. *)
Definition not_a_directory (dirpath : string) : string :=
  "ENOTDIR: not a directory, scandir '" +:+ dirpath +:+ "'".

(** library (archiver's [directory], on readdir-glob): the matches below the
    directory are queued; a directory that is not there has no match and is
    no error; a path that leads to a regular file makes the scan fail. *)
Definition directory_tasks (cwd : dirlist) (dirpath : string) (d : destpath) : list task :=
  match locate cwd (path_components dirpath) with
  | Some (Dir kids) =>
      map (fun m => Append (entry_name (dest_prefix dirpath d) (fst m) (snd m))
                           (join_path dirpath (fst m)) (snd m))
          (glob_dir kids)
  | Some (File _ _) => [GlobFailure (not_a_directory dirpath)]
  | None => []
  end.

(** ** JavaScript values, environments, closures *)

Inductive value :=
| VUndefined
| VStr (s : string)
| VNum (z : Z)
| VObject (fields : list (string * value))
| VError (message : string)
| VBuffer (c : chunk)
| VArchive (id : nat)
| VResponse (id : nat)
| VRequest (id : nat)
| VBuiltin (name : string).

Definition env := list (string * value).

Fixpoint lookup_var (x : string) (rho : env) : option value :=
  match rho with
  | [] => None
  | (y, v) :: rho' => if String.eqb y x then Some v else lookup_var x rho'
  end.

(** The callbacks of the program, defunctionalised: the three function
    expressions of [downloadZip] and the three listeners that [pipe]
    installs. *)
Inductive code :=
| CbArchiveError
| CbArchiveEnd
| CbResponseClose
| PipeOnData
| PipeOnEnd
| PipeOnClose.

Record closure := Closure { c_code : code; c_env : env }.

Inductive exn :=
| ReferenceError (name : string)
| TypeError (what : string)
| UnhandledError (message : string)
| ERR_HTTP_HEADERS_SENT
| ERR_STREAM_WRITE_AFTER_END.

(** ** Heap objects *)

Record archive := Archive {
  a_format : string;
  a_level : Z;
  a_listeners : list (string * closure);
  a_pipe : option nat;
  a_queue : list task;
  a_finalized : bool;
  a_entries : list string;
  a_pointer : Z;
  a_sealed : bool;
  a_ended : bool
}.

Record response := Response {
  r_status : Z;
  r_headers : gmap string string;
  r_committed : option Z;
  r_body : list value;
  r_ended : bool;
  r_closed : bool;
  r_listeners : list (string * closure)
}.

Record world := World {
  archives : gmap nat archive;
  responses : gmap nat response;
  console : list (string * list value);
  cwd : dirlist
}.

Definition with_archives (f : gmap nat archive -> gmap nat archive) (w : world) : world :=
  World (f (archives w)) (responses w) (console w) (cwd w).

Definition with_responses (f : gmap nat response -> gmap nat response) (w : world) : world :=
  World (archives w) (f (responses w)) (console w) (cwd w).

Definition with_console (f : list (string * list value) -> list (string * list value))
    (w : world) : world :=
  World (archives w) (responses w) (f (console w)) (cwd w).

(** ** The monad: state that survives a throw *)

Inductive result (A : Type) :=
| Ok (a : A)
| Throw (e : exn).
Arguments Ok {A} a.
Arguments Throw {A} e.

Definition M (A : Type) : Type := world -> result A * world.

Definition ret {A} (a : A) : M A := fun w => (Ok a, w).

Definition throw {A} (e : exn) : M A := fun w => (Throw e, w).

Definition bind {A B} (c : M A) (k : A -> M B) : M B :=
  fun w =>
    match c w with
    | (Ok a, w') => k a w'
    | (Throw e, w') => (Throw e, w')
    end.

Notation "'let!' x ':=' c 'in' k" := (bind c (fun x => k))
  (at level 10, x name, c at level 100, k at level 200).
Notation "c '>>' k" := (bind c (fun _ => k))
  (at level 100, k at level 200, right associativity).

Definition var (rho : env) (x : string) : M value :=
  match lookup_var x rho with
  | Some v => ret v
  | None => throw (ReferenceError x)
  end.

Definition as_archive (v : value) (method : string) : M nat :=
  match v with
  | VArchive id => ret id
  | _ => throw (TypeError method)
  end.

Definition as_response (v : value) (method : string) : M nat :=
  match v with
  | VResponse id => ret id
  | _ => throw (TypeError method)
  end.

Definition get_archive (id : nat) : M archive :=
  fun w =>
    match archives w !! id with
    | Some a => (Ok a, w)
    | None => (Throw (TypeError "archive"), w)
    end.

Definition get_response (id : nat) : M response :=
  fun w =>
    match responses w !! id with
    | Some r => (Ok r, w)
    | None => (Throw (TypeError "response"), w)
    end.

Definition set_archive (id : nat) (a : archive) : M unit :=
  fun w => (Ok tt, with_archives (insert id a) w).

Definition set_response (id : nat) (r : response) : M unit :=
  fun w => (Ok tt, with_responses (insert id r) w).

(** ** library: Express response *)

Definition dquote : string := String "034"%char EmptyString.

(** [path.extname]: the suffix from the last dot on. *)
Fixpoint extname (s : string) : string :=
  match s with
  | EmptyString => EmptyString
  | String c s' =>
      match extname s' with
      | EmptyString => if Ascii.eqb c "." then s else EmptyString
      | e => e
      end
  end.

(** The one row of the MIME table the program reaches, and the table's
    default. *)
Definition mime_lookup (ext : string) : string :=
  if String.eqb ext ".zip" then "application/zip" else "application/octet-stream".

Definition content_disposition (filename : string) : string :=
  "attachment; filename=" +:+ dquote +:+ filename +:+ dquote.

Definition set_charset (ctype : string) : string := ctype +:+ "; charset=utf-8".

(** [setHeader]: refused once the header block has gone out. *)
Definition res_set (id : nat) (field val : string) : M unit :=
  let! r := get_response id in
  match r_committed r with
  | Some _ => throw ERR_HTTP_HEADERS_SENT
  | None =>
      set_response id
        (Response (r_status r) (<[field := val]> (r_headers r)) (r_committed r)
                  (r_body r) (r_ended r) (r_closed r) (r_listeners r))
  end.

Definition res_status (v : value) (code : Z) : M value :=
  let! id := as_response v "status" in
  let! r := get_response id in
  set_response id
    (Response code (r_headers r) (r_committed r) (r_body r) (r_ended r)
              (r_closed r) (r_listeners r)) >>
  ret v.

Definition res_attachment (v : value) (filename : string) : M value :=
  let! id := as_response v "attachment" in
  res_set id "Content-Type" (mime_lookup (extname filename)) >>
  res_set id "Content-Disposition" (content_disposition filename) >>
  ret v.

(** The header block goes out with the status the object holds at that
    moment. *)
Definition commit (r : response) : option Z :=
  match r_committed r with
  | Some s => Some s
  | None => Some (r_status r)
  end.

Definition res_end_with (id : nat) (payload : list value) : M unit :=
  let! r := get_response id in
  if r_ended r then ret tt
  else
    set_response id
      (Response (r_status r) (r_headers r) (commit r) (r_body r ++ payload) true
                (r_closed r) (r_listeners r)).

Definition res_end (v : value) : M value :=
  let! id := as_response v "end" in
  res_end_with id [] >>
  ret v.

(** [res.send(body)]: an object goes out as JSON; the content type is kept
    when one is set and gets its charset; then the response is ended with the
    body. *)
Definition res_send (v : value) (body : value) : M value :=
  let! id := as_response v "send" in
  let! r := get_response id in
  let fallback := match body with
                  | VObject _ => "application/json"
                  | _ => "text/html"
                  end in
  let ctype := match r_headers r !! "Content-Type" with
               | Some t => t
               | None => fallback
               end in
  res_set id "Content-Type" (set_charset ctype) >>
  res_end_with id [body] >>
  ret v.

(** The body is kept record by record: the header of an entry whose data
    never follows is bytes on the wire, and no record. *)
Definition written (c : value) : list value :=
  match c with
  | VBuffer (EntryHeader _) => []
  | _ => [c]
  end.

(** [write], as the pipe calls it: an error after [end], dropped on a closed
    connection, otherwise the header block goes out if it has not yet and the
    chunk follows it. *)
Definition res_write (v : value) (c : value) : M unit :=
  let! id := as_response v "write" in
  let! r := get_response id in
  if r_ended r then throw ERR_STREAM_WRITE_AFTER_END
  else if r_closed r then ret tt
  else
    set_response id
      (Response (r_status r) (r_headers r) (commit r) (r_body r ++ written c) (r_ended r)
                (r_closed r) (r_listeners r)).

Definition res_on (v : value) (ev : string) (c : closure) : M value :=
  let! id := as_response v "on" in
  let! r := get_response id in
  set_response id
    (Response (r_status r) (r_headers r) (r_committed r) (r_body r) (r_ended r)
              (r_closed r) (r_listeners r ++ [(ev, c)])) >>
  ret v.

(** ** library: console *)

Definition console_log (v : value) (fmt : string) (args : list value) : M unit :=
  match v with
  | VBuiltin n =>
      if String.eqb n "console"
      then fun w => (Ok tt, with_console (fun l => l ++ [(fmt, args)]) w)
      else throw (TypeError "log")
  | _ => throw (TypeError "log")
  end.

(** ** library: archiver *)

Definition archiver (f : value) (format : string) (level : Z) : M value :=
  match f with
  | VBuiltin n =>
      if String.eqb n "archiver"
      then fun w =>
             let id := fresh (dom (archives w)) in
             (Ok (VArchive id),
              with_archives
                (insert id (Archive format level [] None [] false [] 0 false false)) w)
      else throw (TypeError "archiver")
  | _ => throw (TypeError "archiver")
  end.

Definition archive_on (v : value) (ev : string) (c : closure) : M value :=
  let! id := as_archive v "on" in
  let! a := get_archive id in
  set_archive id
    (Archive (a_format a) (a_level a) (a_listeners a ++ [(ev, c)]) (a_pipe a)
             (a_queue a) (a_finalized a) (a_entries a) (a_pointer a) (a_sealed a)
             (a_ended a)) >>
  ret v.

Definition pipe_env (src dest : value) : env := [("src", src); ("dest", dest)].

(** [readable.pipe(dest)]: data and end of the source are forwarded to
    [dest], a close of [dest] unpipes; returns [dest]. *)
Definition archive_pipe (v dest : value) : M value :=
  let! id := as_archive v "pipe" in
  let! rid := as_response dest "pipe" in
  let! a := get_archive id in
  let pi := pipe_env v dest in
  set_archive id
    (Archive (a_format a) (a_level a)
             (a_listeners a ++ [("data", Closure PipeOnData pi); ("end", Closure PipeOnEnd pi)])
             (Some rid) (a_queue a) (a_finalized a) (a_entries a) (a_pointer a)
             (a_sealed a) (a_ended a)) >>
  res_on dest "close" (Closure PipeOnClose pi) >>
  ret dest.

Definition archive_unpipe (v dest : value) : M unit :=
  let! id := as_archive v "unpipe" in
  let! rid := as_response dest "unpipe" in
  let! a := get_archive id in
  match a_pipe a with
  | Some d =>
      if Nat.eqb d rid then
        set_archive id
          (Archive (a_format a) (a_level a) (a_listeners a) None (a_queue a)
                   (a_finalized a) (a_entries a) (a_pointer a) (a_sealed a) (a_ended a))
      else ret tt
  | None => ret tt
  end.

Definition archive_finalize (v : value) : M unit :=
  let! id := as_archive v "finalize" in
  let! a := get_archive id in
  set_archive id
    (Archive (a_format a) (a_level a) (a_listeners a) (a_pipe a) (a_queue a) true
             (a_entries a) (a_pointer a) (a_sealed a) (a_ended a)).

Definition archive_pointer (v : value) : M value :=
  let! id := as_archive v "pointer" in
  let! a := get_archive id in
  ret (VNum (a_pointer a)).

Definition error_message (v : value) : M value :=
  match v with
  | VError m => ret (VStr m)
  | VObject fs => ret (match lookup_var "message" fs with Some m => m | None => VUndefined end)
  | VUndefined => throw (TypeError "message")
  | _ => ret VUndefined
  end.

(** ** Lexical environments of [zipfolder.js] *)

(** Names every Node module sees: the globals and the parameters of the
    CommonJS wrapper. *)
Definition node_scope : env :=
  map (fun n => (n, VBuiltin n))
      ["exports"; "require"; "module"; "__filename"; "__dirname";
       "console"; "process"; "global"; "globalThis"; "Buffer";
       "setTimeout"; "clearTimeout"; "setInterval"; "clearInterval";
       "setImmediate"; "clearImmediate"; "queueMicrotask";
       "Object"; "Function"; "Array"; "String"; "Number"; "Boolean"; "Symbol";
       "Error"; "TypeError"; "ReferenceError"; "RangeError"; "SyntaxError";
       "Promise"; "JSON"; "Math"; "Date"; "RegExp"; "Map"; "Set"; "WeakMap";
       "WeakSet"; "Proxy"; "Reflect"; "URL"; "URLSearchParams";
       "TextEncoder"; "TextDecoder"; "parseInt"; "parseFloat"; "isNaN";
       "isFinite"; "NaN"; "Infinity"; "undefined"].

(** Line 1: [const archiver = require('archiver')]. *)
Definition module_scope : env := ("archiver", VBuiltin "archiver") :: node_scope.

(** The scope of one call of [downloadZip]: its two parameters and its one
    [var]. *)
Definition call_scope (request respose archive : value) : env :=
  ("archive", archive) :: ("request", request) :: ("respose", respose) :: module_scope.

(** ** The callbacks of [downloadZip] *)

(** Lines 9-11. *)
Definition cb_archive_error (rho : env) (err : value) : M unit :=
  let rho := ("err", err) :: rho in
  let! r := var rho "respose" in
  let! r1 := res_status r 500 in
  let! e := var rho "err" in
  let! m := error_message e in
  res_send r1 (VObject [("error", m)]) >>
  ret tt.

(** Lines 14-16. *)
Definition cb_archive_end (rho : env) : M unit :=
  let! c := var rho "console" in
  let! a := var rho "archive" in
  let! p := archive_pointer a in
  console_log c "Archive wrote %d bytes" [p].

(** Lines 25-28. *)
Definition cb_response_close (rho : env) : M unit :=
  let! c := var rho "console" in
  let! a := var rho "archive" in
  let! p := archive_pointer a in
  console_log c "Archive wrote %d bytes" [p] >>
  let! r := var rho "res" in
  let! r1 := res_status r 200 in
  let! r2 := res_send r1 (VStr "OK") in
  res_end r2 >>
  ret tt.

(** library: the listeners [pipe] installs.  The pipe forwards while the
    destination is still piped and has not finished. *)
Definition still_piped (src dest : value) : M bool :=
  let! id := as_archive src "pipe" in
  let! rid := as_response dest "pipe" in
  let! a := get_archive id in
  let! r := get_response rid in
  ret (match a_pipe a with
       | Some d => Nat.eqb d rid && negb (r_ended r)
       | None => false
       end).

Definition pipe_on_data (rho : env) (c : value) : M unit :=
  let! s := var rho "src" in
  let! d := var rho "dest" in
  let! p := still_piped s d in
  if p then res_write d c else ret tt.

Definition pipe_on_end (rho : env) : M unit :=
  let! s := var rho "src" in
  let! d := var rho "dest" in
  let! p := still_piped s d in
  if p then res_end d >> ret tt else ret tt.

Definition pipe_on_close (rho : env) : M unit :=
  let! s := var rho "src" in
  let! d := var rho "dest" in
  archive_unpipe s d.

Definition invoke (c : closure) (arg : value) : M unit :=
  match c_code c with
  | CbArchiveError => cb_archive_error (c_env c) arg
  | CbArchiveEnd => cb_archive_end (c_env c)
  | CbResponseClose => cb_response_close (c_env c)
  | PipeOnData => pipe_on_data (c_env c) arg
  | PipeOnEnd => pipe_on_end (c_env c)
  | PipeOnClose => pipe_on_close (c_env c)
  end.

(** [EventEmitter.emit]: the listeners of the event in the order they were
    added; the first one that throws ends the turn. *)
Fixpoint emit (ls : list (string * closure)) (ev : string) (arg : value) : M unit :=
  match ls with
  | [] => ret tt
  | (e, c) :: ls' =>
      if String.eqb e ev then invoke c arg >> emit ls' ev arg
      else emit ls' ev arg
  end.

Definition has_listener (ls : list (string * closure)) (ev : string) : bool :=
  existsb (fun l => String.eqb (fst l) ev) ls.

Definition archive_emit (id : nat) (ev : string) (arg : value) : M unit :=
  let! a := get_archive id in
  if String.eqb ev "error" && negb (has_listener (a_listeners a) "error")
  then throw (UnhandledError (match arg with VError m => m | _ => EmptyString end))
  else emit (a_listeners a) ev arg.

(** [archive.directory(dirpath, destpath)]: refused once [finalize] was
    called, otherwise the matches of the directory are queued. *)
Definition archive_directory (v : value) (dirpath : string) (d : destpath) : M value :=
  let! id := as_archive v "directory" in
  let! a := get_archive id in
  if a_finalized a then archive_emit id "error" (VError "queue closed") >> ret v
  else
    (fun w =>
       set_archive id
         (Archive (a_format a) (a_level a) (a_listeners a) (a_pipe a)
                  (a_queue a ++ directory_tasks (cwd w) dirpath d) (a_finalized a)
                  (a_entries a) (a_pointer a) (a_sealed a) (a_ended a)) w) >>
    ret v.

(** ** [exports.downloadZip], lines 3-31 *)

Definition downloadZip (request respose : value) : M unit :=
  let rho0 := call_scope request respose VUndefined in
  let! mk := var rho0 "archiver" in
  let! archive := archiver mk "zip" 9 in
  let rho := call_scope request respose archive in
  let! a := var rho "archive" in
  archive_on a "error" (Closure CbArchiveError rho) >>
  let! a := var rho "archive" in
  archive_on a "end" (Closure CbArchiveEnd rho) >>
  let! r := var rho "respose" in
  res_attachment r "folder.zip" >>
  let! a := var rho "archive" in
  let! r := var rho "respose" in
  archive_pipe a r >>
  let! a := var rho "archive" in
  archive_directory a "Test/" DestFalse >>
  let! a := var rho "archive" in
  archive_finalize a >>
  let! r := var rho "respose" in
  res_on r "close" (Closure CbResponseClose rho) >>
  ret tt.

(** ** The event loop *)

(** library: one unit of archiver work.  The head of the queue is read and
    emitted; when the queue is empty after [finalize], the central directory
    goes out, and on the next turn the stream ends.  The header of an entry
    is emitted before its file is opened, so a file that cannot be opened
    fails behind its own header.  A turn is taken whether or not the stream
    is still piped and whatever a listener threw in an earlier turn: what a
    paused stream holds back is not modelled. *)
Definition tick (id : nat) : M unit :=
  fun w =>
    match archives w !! id with
    | None => (Ok tt, w)
    | Some a =>
        if a_ended a then (Ok tt, w)
        else
          match a_queue a with
          | Append name source (IsFile true data) :: q =>
              (set_archive id
                 (Archive (a_format a) (a_level a) (a_listeners a) (a_pipe a) q
                          (a_finalized a) (a_entries a ++ [name])
                          (a_pointer a + chunk_size (FileRecord name data))
                          (a_sealed a) (a_ended a)) >>
               archive_emit id "data" (VBuffer (FileRecord name data))) w
          | Append name source (IsFile false _) :: q =>
              (set_archive id
                 (Archive (a_format a) (a_level a) (a_listeners a) (a_pipe a) q
                          (a_finalized a) (a_entries a) (a_pointer a)
                          (a_sealed a) (a_ended a)) >>
               archive_emit id "data" (VBuffer (EntryHeader name)) >>
               archive_emit id "error"
                 (VError ("EACCES: permission denied, open '" +:+ source +:+ "'"))) w
          | Append name source IsDirectory :: q =>
              (set_archive id
                 (Archive (a_format a) (a_level a) (a_listeners a) (a_pipe a) q
                          (a_finalized a) (a_entries a ++ [name])
                          (a_pointer a + chunk_size (DirRecord name))
                          (a_sealed a) (a_ended a)) >>
               archive_emit id "data" (VBuffer (DirRecord name))) w
          | GlobFailure m :: q =>
              (set_archive id
                 (Archive (a_format a) (a_level a) (a_listeners a) (a_pipe a) q
                          (a_finalized a) (a_entries a) (a_pointer a)
                          (a_sealed a) (a_ended a)) >>
               archive_emit id "error" (VError m)) w
          | [] =>
              if a_finalized a then
                if a_sealed a then
                  (set_archive id
                     (Archive (a_format a) (a_level a) (a_listeners a) (a_pipe a) []
                              (a_finalized a) (a_entries a) (a_pointer a)
                              (a_sealed a) true) >>
                   archive_emit id "end" VUndefined) w
                else
                  (set_archive id
                     (Archive (a_format a) (a_level a) (a_listeners a) (a_pipe a) []
                              (a_finalized a) (a_entries a)
                              (a_pointer a + chunk_size (CentralDirectory (a_entries a)))
                              true (a_ended a)) >>
                   archive_emit id "data" (VBuffer (CentralDirectory (a_entries a)))) w
              else (Ok tt, w)
          end
    end.

(** library: the response reports its closure once. *)
Definition close (id : nat) : M unit :=
  fun w =>
    match responses w !! id with
    | None => (Ok tt, w)
    | Some r =>
        if r_closed r then (Ok tt, w)
        else
          (set_response id
             (Response (r_status r) (r_headers r) (r_committed r) (r_body r)
                       (r_ended r) true (r_listeners r)) >>
           emit (r_listeners r) "close" VUndefined) w
    end.

(** library: Express builds a response object for the request; the route of
    [index.js] line 10 hands it to [downloadZip]. *)
Definition new_response : M nat :=
  fun w =>
    let id := fresh (dom (responses w)) in
    (Ok id,
     with_responses
       (insert id (Response 200 {["X-Powered-By" := "Express"]} None [] false false [])) w).

Definition incoming : M unit :=
  let! rid := new_response in
  downloadZip (VRequest rid) (VResponse rid).

(** The directory on disk is rewritten by somebody else. *)
Definition fs_change (fs : dirlist) : M unit :=
  fun w => (Ok tt, World (archives w) (responses w) (console w) fs).

Inductive stimulus :=
| Incoming
| Tick (archive_id : nat)
| Close (response_id : nat)
| FsChange (fs : dirlist).

Definition step (s : stimulus) : M unit :=
  match s with
  | Incoming => incoming
  | Tick id => tick id
  | Close id => close id
  | FsChange fs => fs_change fs
  end.

(** A run of the loop: the exceptions that left a turn, and the world at the
    end. *)
Fixpoint run (tr : list stimulus) (w : world) : list exn * world :=
  match tr with
  | [] => ([], w)
  | s :: tr' =>
      match step s w with
      | (Ok _, w') => run tr' w'
      | (Throw e, w') => let (es, w'') := run tr' w' in (e :: es, w'')
      end
  end.


Definition boot (fs : dirlist) : world := World ∅ ∅ [] fs.

(** * Derived notions: sessions, invariants, example directories *)

(** ** What a call of [downloadZip] leaves on the heap *)

Definition archive_listeners (i : nat) : list (string * closure) :=
  let rho := call_scope (VRequest i) (VResponse i) (VArchive i) in
  let pi := pipe_env (VArchive i) (VResponse i) in
  [("error", Closure CbArchiveError rho); ("end", Closure CbArchiveEnd rho);
   ("data", Closure PipeOnData pi); ("end", Closure PipeOnEnd pi)].

Definition response_listeners (i : nat) : list (string * closure) :=
  let rho := call_scope (VRequest i) (VResponse i) (VArchive i) in
  let pi := pipe_env (VArchive i) (VResponse i) in
  [("close", Closure PipeOnClose pi); ("close", Closure CbResponseClose rho)].

Definition fresh_archive (fs : dirlist) (i : nat) : archive :=
  Archive "zip" 9 (archive_listeners i) (Some i)
          (directory_tasks fs "Test/" DestFalse) true [] 0 false false.

Definition fresh_response (i : nat) : response :=
  Response 200
    (<["Content-Disposition" := content_disposition "folder.zip"]>
       (<["Content-Type" := "application/zip"]> {["X-Powered-By" := "Express"]}))
    None [] false false (response_listeners i).

(** ** What one turn does to one session

    The archive and the response of a request, as a pair; the functions below
    are the effect of a turn on that pair, proved equal to the effect of
    [step] on the heap in [tick_spec] and [close_spec]. *)

Definition appended (r : response) (c : value) : response :=
  Response (r_status r) (r_headers r) (commit r) (r_body r ++ written c) (r_ended r)
           (r_closed r) (r_listeners r).

Definition forwards (i : nat) (a : archive) (r : response) : bool :=
  match a_pipe a with
  | Some d => Nat.eqb d i && negb (r_ended r)
  | None => false
  end.

Definition on_data (i : nat) (a : archive) (r : response) (c : chunk) : response :=
  if forwards i a r then (if r_closed r then r else appended r (VBuffer c)) else r.

Definition on_end (i : nat) (a : archive) (r : response) : response :=
  if forwards i a r
  then Response (r_status r) (r_headers r) (commit r) (r_body r) true (r_closed r)
                (r_listeners r)
  else r.

Definition on_error (r : response) (m : string) : result unit * response :=
  match r_committed r with
  | Some _ =>
      (Throw ERR_HTTP_HEADERS_SENT,
       Response 500 (r_headers r) (r_committed r) (r_body r) (r_ended r) (r_closed r)
                (r_listeners r))
  | None =>
      let ct := match r_headers r !! "Content-Type" with
                | Some t => t
                | None => "application/json"
                end in
      let h := <["Content-Type" := set_charset ct]> (r_headers r) in
      (Ok tt,
       if r_ended r
       then Response 500 h None (r_body r) true (r_closed r) (r_listeners r)
       else Response 500 h (Some 500) (r_body r ++ [VObject [("error", VStr m)]]) true
                     (r_closed r) (r_listeners r))
  end.

Definition dequeued (a : archive) (q : list task) (c : option (string * chunk)) : archive :=
  match c with
  | Some (name, c) =>
      Archive (a_format a) (a_level a) (a_listeners a) (a_pipe a) q (a_finalized a)
              (a_entries a ++ [name]) (a_pointer a + chunk_size c) (a_sealed a)
              (a_ended a)
  | None =>
      Archive (a_format a) (a_level a) (a_listeners a) (a_pipe a) q (a_finalized a)
              (a_entries a) (a_pointer a) (a_sealed a) (a_ended a)
  end.

Definition access_denied (source : string) : string :=
  "EACCES: permission denied, open '" +:+ source +:+ "'".

Definition wrote_line (a : archive) : string * list value :=
  ("Archive wrote %d bytes", [VNum (a_pointer a)]).

Record turn := Turn {
  t_result : result unit;
  t_archive : archive;
  t_response : response;
  t_log : list (string * list value)
}.

Definition session_tick (i : nat) (a : archive) (r : response) : turn :=
  if a_ended a then Turn (Ok tt) a r []
  else
    match a_queue a with
    | Append name source (IsFile true data) :: q =>
        let a' := dequeued a q (Some (name, FileRecord name data)) in
        Turn (Ok tt) a' (on_data i a' r (FileRecord name data)) []
    | Append name source (IsFile false _) :: q =>
        let a' := dequeued a q None in
        let e := on_error (on_data i a' r (EntryHeader name)) (access_denied source) in
        Turn (fst e) a' (snd e) []
    | Append name source IsDirectory :: q =>
        let a' := dequeued a q (Some (name, DirRecord name)) in
        Turn (Ok tt) a' (on_data i a' r (DirRecord name)) []
    | GlobFailure m :: q =>
        let e := on_error r m in
        Turn (fst e) (dequeued a q None) (snd e) []
    | [] =>
        if a_finalized a then
          if a_sealed a then
            let a' := Archive (a_format a) (a_level a) (a_listeners a) (a_pipe a) []
                              (a_finalized a) (a_entries a) (a_pointer a) (a_sealed a)
                              true in
            Turn (Ok tt) a' (on_end i a' r) [wrote_line a]
          else
            let a' := Archive (a_format a) (a_level a) (a_listeners a) (a_pipe a) []
                              (a_finalized a) (a_entries a)
                              (a_pointer a + chunk_size (CentralDirectory (a_entries a)))
                              true (a_ended a) in
            Turn (Ok tt) a' (on_data i a' r (CentralDirectory (a_entries a))) []
        else Turn (Ok tt) a r []
    end.

Definition unpiped (i : nat) (a : archive) : archive :=
  match a_pipe a with
  | Some d =>
      if Nat.eqb d i
      then Archive (a_format a) (a_level a) (a_listeners a) None (a_queue a)
                   (a_finalized a) (a_entries a) (a_pointer a) (a_sealed a) (a_ended a)
      else a
  | None => a
  end.

Definition session_close (i : nat) (a : archive) (r : response) : turn :=
  if r_closed r then Turn (Ok tt) a r []
  else
    Turn (Throw (ReferenceError "res")) (unpiped i a)
         (Response (r_status r) (r_headers r) (r_committed r) (r_body r) (r_ended r)
                   true (r_listeners r))
         [wrote_line a].

Definition put (i : nat) (t : turn) (w : world) : world :=
  World (<[i := t_archive t]> (archives w)) (<[i := t_response t]> (responses w))
        (console w ++ t_log t) (cwd w).

(** ** Directories used as examples *)

Definition ex_tree : dirlist :=
  [("Test", Dir [("a.txt", File true [Byte.x68; Byte.x69]);
                 ("sub", Dir [("b.txt", File true [Byte.x21])])])].

Definition ex_two : dirlist :=
  [("Test", Dir [("a.txt", File true [Byte.x68; Byte.x69]);
                 ("b.txt", File true [Byte.x21])])].

Definition ex_half : dirlist :=
  [("Test", Dir [("a.txt", File true [Byte.x68; Byte.x69]);
                 ("b.txt", File false [Byte.x21])])].

Definition ex_locked : dirlist :=
  [("Test", Dir [("a.txt", File false [Byte.x68; Byte.x69])])].

Definition ex_empty : dirlist := [("Test", Dir [])].

(** The records of [ex_tree], in the order of the archive. *)
Definition ex_tree_records : list (string * chunk) :=
  [("a.txt", FileRecord "a.txt" [Byte.x68; Byte.x69]);
   ("sub/", DirRecord "sub/");
   ("sub/b.txt", FileRecord "sub/b.txt" [Byte.x21])].

(** [Test] is a regular file; there is no [Test] at all. *)
Definition ex_file : dirlist := [("Test", File true [Byte.x68; Byte.x69])].

Definition ex_missing : dirlist := [("src", Dir [])].

(** ** Well-formed worlds, and the worlds the loop reaches *)

Record wf_archive (i : nat) (a : archive) : Prop := {
  wa_listeners : a_listeners a = archive_listeners i;
  wa_pipe : a_pipe a = Some i \/ a_pipe a = None;
  wa_format : a_format a = "zip";
  wa_level : a_level a = 9;
  wa_finalized : a_finalized a = true
}.

Record wf_response (i : nat) (r : response) : Prop := {
  wr_listeners : r_listeners r = response_listeners i;
  wr_disposition : r_headers r !! "Content-Disposition" = Some (content_disposition "folder.zip");
  wr_type : r_headers r !! "Content-Type" = Some "application/zip" \/
            r_headers r !! "Content-Type" = Some (set_charset "application/zip");
  wr_untouched : r_committed r = None ->
                 r_body r = [] /\ r_ended r = false /\
                 r_headers r !! "Content-Type" = Some "application/zip" /\
                 r_status r = 200;
  wr_codes : forall s, r_committed r = Some s -> s = 200 \/ s = 500;
  wr_error : r_committed r = Some 500 ->
             r_ended r = true /\
             r_headers r !! "Content-Type" = Some (set_charset "application/zip") /\
             exists m, r_body r = [VObject [("error", VStr m)]]
}.

Record wf (w : world) : Prop := {
  wf_dom : dom (archives w) = dom (responses w);
  wf_archives : forall i a, archives w !! i = Some a -> wf_archive i a;
  wf_responses : forall i r, responses w !! i = Some r -> wf_response i r
}.

Definition reachable (w : world) : Prop :=
  exists fs tr, w = snd (run tr (boot fs)).

(** The two objects of a request. *)
Definition session (i : nat) (w : world) : option archive * option response :=
  (archives w !! i, responses w !! i).

(** The failure the archiver reports for the entry at the head of its queue:
    a file that cannot be opened, or a directory that cannot be scanned. *)
Definition head_failure (q : list task) : option string :=
  match q with
  | Append _ source (IsFile false _) :: _ => Some (access_denied source)
  | GlobFailure m :: _ => Some m
  | _ => None
  end.

(** ** A request that is served in full *)

Definition task_record (t : task) : option (string * chunk) :=
  match t with
  | Append name _ (IsFile true data) => Some (name, FileRecord name data)
  | Append name _ IsDirectory => Some (name, DirRecord name)
  | _ => None
  end.

(** The records of a queue in which every entry can be read. *)
Fixpoint all_records (q : list task) : option (list (string * chunk)) :=
  match q with
  | [] => Some []
  | t :: q' =>
      match task_record t, all_records q' with
      | Some rc, Some rs => Some (rc :: rs)
      | _, _ => None
      end
  end.

Definition total_size (rs : list (string * chunk)) : Z :=
  fold_right (fun rc acc => chunk_size (snd rc) + acc) 0 rs.

Definition drained (a : archive) (rs : list (string * chunk)) : archive :=
  Archive (a_format a) (a_level a) (a_listeners a) (a_pipe a) [] (a_finalized a)
          (a_entries a ++ map fst rs) (a_pointer a + total_size rs) (a_sealed a)
          (a_ended a).

Definition fed (r : response) (rs : list (string * chunk)) : response :=
  Response (r_status r) (r_headers r)
           (match rs with [] => r_committed r | _ => commit r end)
           (r_body r ++ map (fun rc => VBuffer (snd rc)) rs) (r_ended r) (r_closed r)
           (r_listeners r).

(** The response of a request that was served in full. *)
Definition served (n : nat) (rs : list (string * chunk)) : response :=
  Response 200 (r_headers (fresh_response n)) (Some 200)
           (map (fun rc => VBuffer (snd rc)) rs ++ [VBuffer (CentralDirectory (map fst rs))])
           true false (response_listeners n).

Definition sealed_archive (n : nat) (rs : list (string * chunk)) : archive :=
  Archive "zip" 9 (archive_listeners n) (Some n) [] true (map fst rs) (total_size rs)
          true true.

Definition request_trace (n : nat) (entries : nat) : list stimulus :=
  Incoming :: repeat (Tick n) (entries + 2).

Definition closed_response (r : response) : response :=
  Response (r_status r) (r_headers r) (r_committed r) (r_body r) (r_ended r) true
           (r_listeners r).










(** ** Names that sanitising leaves alone *)









(** ** Inside the turn that ends the stream *)



(** A request whose entries and central directory are all out: its response,
    still open, and its archive, which has yet to end. *)
Definition all_out (n : nat) (rs : list (string * chunk)) : response :=
  Response 200 (r_headers (fresh_response n)) (Some 200)
           (map (fun rc => VBuffer (snd rc)) rs ++ [VBuffer (CentralDirectory (map fst rs))])
           false false (response_listeners n).

Definition awaiting_end (n : nat) (rs : list (string * chunk)) : archive :=
  Archive "zip" 9 (archive_listeners n) (Some n) [] true (map fst rs) (total_size rs)
          true false.


(** ** What a client has of a response *)

(** [kept_on_the_wire r r']: what went out with [r] is still what went out
    with [r']: the status line is the same, the body of [r] is the head of
    the body of [r'], and an ended body has not grown. *)
Definition kept_on_the_wire (r r' : response) : Prop :=
  (forall s, r_committed r = Some s -> r_committed r' = Some s) /\
  (exists more, r_body r' = r_body r ++ more) /\
  (r_ended r = true -> r_ended r' = true /\ r_body r' = r_body r).

Definition is_record (v : value) : bool :=
  match v with
  | VBuffer _ => true
  | _ => false
  end.

(** [kept_after_close r r']: if [r] is closed, [r'] is closed and holds the
    same archive records. *)
Definition kept_after_close (r r' : response) : Prop :=
  r_closed r = true ->
  r_closed r' = true /\ filter (fun v => is_record v = true) (r_body r') =
                        filter (fun v => is_record v = true) (r_body r).

(** A body is nothing yet, or archive records under 200, or one error
    object under 500. *)
Definition body_shape (r : response) : Prop :=
  match r_committed r with
  | None => r_body r = []
  | Some s =>
      (s = 200 /\ forallb is_record (r_body r) = true) \/
      (s = 500 /\ exists m, r_body r = [VObject [("error", VStr m)]])
  end.

Definition expected_escape (e : exn) : Prop :=
  e = ReferenceError "res" \/ e = ERR_HTTP_HEADERS_SENT.




(** ** [index.js]: the informational route *)

(** The module scope of [index.js], lines 1-3. *)
Definition index_scope : env :=
  ("express", VBuiltin "express") :: ("app", VBuiltin "app") ::
  ("zipFile", VBuiltin "zipFile") :: node_scope.

(** Property access [v.name]. *)
Definition member (v : value) (name : string) : M value :=
  match v with
  | VObject fs => ret (match lookup_var name fs with
                       | Some x => x
                       | None => VUndefined
                       end)
  | VUndefined => throw (TypeError name)
  | _ => ret VUndefined
  end.

(** [JSON.stringify(x)]; the serialiser itself is the engine's and comes in
    as [stringify]. *)
Definition json_stringify (stringify : value -> value) (j x : value) : M value :=
  match j with
  | VBuiltin n =>
      if String.eqb n "JSON" then ret (stringify x) else throw (TypeError "stringify")
  | _ => throw (TypeError "stringify")
  end.

(** Lines 5-7: the handler of [GET /]. *)
Definition home (stringify : value -> value) (req res : value) : M unit :=
  let rho := ("req", req) :: ("res", res) :: index_scope in
  let! r := var rho "res" in
  let! j := var rho "JSON" in
  let! q := var rho "req" in
  let! h := member q "headers" in
  let! d := json_stringify stringify j h in
  res_send r (VObject [("Name", VStr "Fahim"); ("requestDetails", d)]) >>
  ret tt.

(** library: Express builds the response object and calls the handler of the
    route. *)
Definition incoming_home (stringify : value -> value) (req : value) : M unit :=
  let! rid := new_response in
  home stringify req (VResponse rid).

(** * Lemmas and theorems *)

(** ** Symbolic execution of the monad *)

Lemma scope_archive (rq rs ar : value) :
  lookup_var "archive" (call_scope rq rs ar) = Some ar.
Proof. reflexivity. Qed.

Lemma scope_respose (rq rs ar : value) :
  lookup_var "respose" (call_scope rq rs ar) = Some rs.
Proof. reflexivity. Qed.

Lemma scope_console (rq rs ar : value) :
  lookup_var "console" (call_scope rq rs ar) = Some (VBuiltin "console").
Proof. reflexivity. Qed.

Lemma scope_res (rq rs ar : value) :
  lookup_var "res" (call_scope rq rs ar) = None.
Proof. reflexivity. Qed.

Ltac unfold_ops :=
  unfold incoming, new_response, downloadZip, tick, close,
    cb_archive_error, cb_archive_end, cb_response_close,
    pipe_on_data, pipe_on_end, pipe_on_close, still_piped,
    archive_emit, archive_directory, archive_finalize, archive_pointer,
    archive_pipe, archive_unpipe, archive_on, archiver, console_log,
    res_on, res_write, res_send, res_end, res_end_with, res_attachment,
    res_status, res_set, error_message, invoke,
    set_response, set_archive, get_response, get_archive,
    as_response, as_archive, var, bind, throw, ret,
    with_archives, with_responses, with_console.

Ltac use_lookups :=
  repeat match goal with
         | H : ?m !! ?i = Some _ |- context [?m !! ?i] => rewrite H
         | H : ?m !! ?i = None |- context [?m !! ?i] => rewrite H
         | H : a_listeners ?a = _ |- context [a_listeners ?a] => rewrite H
         | H : r_listeners ?a = _ |- context [r_listeners ?a] => rewrite H
         | H : Nat.eqb ?x ?y = _ |- context [Nat.eqb ?x ?y] => rewrite H
         end.

Ltac exec :=
  repeat (progress (unfold_ops;
                    cbn -[lookup insert fresh dom directory_tasks call_scope
                          content_disposition set_charset access_denied];
                    rewrite ?lookup_insert_eq, ?insert_insert_eq, ?Nat.eqb_refl,
                      ?scope_archive, ?scope_respose, ?scope_console, ?scope_res;
                    use_lookups)).

(** The turn of an incoming request: one new archive, one new response,
    under the same fresh identity, and no exception. *)
Lemma incoming_spec (w : world) :
  dom (archives w) = dom (responses w) ->
  step Incoming w =
    (Ok tt, World (<[fresh (dom (responses w)) :=
                       fresh_archive (cwd w) (fresh (dom (responses w)))]> (archives w))
                  (<[fresh (dom (responses w)) :=
                       fresh_response (fresh (dom (responses w)))]> (responses w))
                  (console w) (cwd w)).
Proof.
  intros Hd. destruct w as [am rm co fs]. cbn in Hd |- *. rewrite Hd.
  exec. reflexivity.
Qed.

Ltac settle Ha Hr :=
  rewrite ?app_nil_r;
  try rewrite (insert_id _ _ _ Ha);
  try rewrite (insert_id _ _ _ Hr);
  try reflexivity.

Ltac split_pipe pp i :=
  let d := fresh "d" in
  let E := fresh "E" in
  destruct pp as [d|]; [destruct (Nat.eqb d i) eqn:E|].

(** A turn of the archiver on the heap is [session_tick] on the session. *)
Lemma tick_spec (w : world) (i : nat) (a : archive) (r : response) :
  archives w !! i = Some a ->
  responses w !! i = Some r ->
  a_listeners a = archive_listeners i ->
  step (Tick i) w =
    (t_result (session_tick i a r), put i (session_tick i a r) w).
Proof.
  intros Ha Hr Hl. destruct w as [am rm co fs]. cbn in Ha, Hr.
  unfold session_tick, put, step, on_data, on_end, on_error, forwards, dequeued, appended.
  destruct a as [fmt lvl ls pp q fin en ptr sealed ended]. cbn in Hl. subst ls.
  destruct r as [st hs cm body rended rclosed rls].
  destruct ended; [exec; settle Ha Hr|].
  destruct q as [|[name source [[|] data|]|m] q].
  - destruct fin; [|exec; settle Ha Hr].
    destruct sealed; split_pipe pp i; destruct rended, rclosed; exec; settle Ha Hr.
  - split_pipe pp i; destruct rended, rclosed; exec; settle Ha Hr.
  - split_pipe pp i; destruct cm, rended, rclosed; exec; settle Ha Hr.
  - split_pipe pp i; destruct rended, rclosed; exec; settle Ha Hr.
  - destruct cm, rended; exec; settle Ha Hr.
Qed.

(** The close of a response on the heap is [session_close] on the session. *)
Lemma close_spec (w : world) (i : nat) (a : archive) (r : response) :
  archives w !! i = Some a ->
  responses w !! i = Some r ->
  r_listeners r = response_listeners i ->
  step (Close i) w =
    (t_result (session_close i a r), put i (session_close i a r) w).
Proof.
  intros Ha Hr Hl. destruct w as [am rm co fs]. cbn in Ha, Hr.
  unfold session_close, put, step, unpiped.
  destruct a as [fmt lvl ls pp q fin en ptr sealed ended].
  destruct r as [st hs cm body rended rclosed rls]. cbn in Hl. subst rls.
  destruct rclosed; [exec; settle Ha Hr|].
  split_pipe pp i; exec; settle Ha Hr.
Qed.

(** ** Runs and reachable worlds *)

Lemma run_cons (s : stimulus) (tr : list stimulus) (w : world) :
  snd (run (s :: tr) w) = snd (run tr (snd (step s w))).
Proof.
  cbn [run]. destruct (step s w) as [[u|e] w']; cbn [snd]; [reflexivity|].
  destruct (run tr w') as [es w'']. reflexivity.
Qed.

Lemma run_app (tr1 tr2 : list stimulus) (w : world) :
  snd (run (tr1 ++ tr2) w) = snd (run tr2 (snd (run tr1 w))).
Proof.
  revert w. induction tr1 as [|s tr1 IH]; intros w; [reflexivity|].
  rewrite <- app_comm_cons, !run_cons. apply IH.
Qed.

Lemma reachable_boot (fs : dirlist) : reachable (boot fs).
Proof. exists fs, []. reflexivity. Qed.

Lemma reachable_run (tr : list stimulus) (w : world) :
  reachable w -> reachable (snd (run tr w)).
Proof.
  intros (fs & tr0 & ->). exists fs, (tr0 ++ tr). symmetry. apply run_app.
Qed.

Lemma reachable_step (s : stimulus) (w : world) :
  reachable w -> reachable (snd (step s w)).
Proof.
  intros H. apply (reachable_run [s]) in H. rewrite run_cons in H. exact H.
Qed.

(** A session lives in both heaps or in neither. *)
Lemma wf_paired (w : world) (i : nat) :
  wf w -> is_Some (archives w !! i) <-> is_Some (responses w !! i).
Proof.
  intros [Hd _ _]. rewrite <- !elem_of_dom, Hd. reflexivity.
Qed.

Lemma tick_absent (w : world) (i : nat) :
  archives w !! i = None -> step (Tick i) w = (Ok tt, w).
Proof. intros H. cbn. unfold tick. rewrite H. reflexivity. Qed.

Lemma close_absent (w : world) (i : nat) :
  responses w !! i = None -> step (Close i) w = (Ok tt, w).
Proof. intros H. cbn. unfold close. rewrite H. reflexivity. Qed.

(** *** The session functions keep a session well formed *)

Lemma wf_fresh_archive (fs : dirlist) (i : nat) : wf_archive i (fresh_archive fs i).
Proof. split; cbn; auto. Qed.

Lemma wf_fresh_response (i : nat) : wf_response i (fresh_response i).
Proof. split; cbn; auto; discriminate. Qed.

Lemma wf_dequeued (i : nat) (a : archive) (q : list task) (c : option (string * chunk)) :
  wf_archive i a -> wf_archive i (dequeued a q c).
Proof. intros [? ? ? ? ?]. destruct c as [[n c]|]; split; assumption. Qed.

Lemma wf_unpiped (i : nat) (a : archive) : wf_archive i a -> wf_archive i (unpiped i a).
Proof.
  intros [? ? ? ? ?]. unfold unpiped. destruct (a_pipe a) as [d|] eqn:E.
  - destruct (Nat.eqb d i); split; cbn; auto; rewrite E; assumption.
  - split; auto; rewrite E; auto.
Qed.

Lemma forwards_open (i : nat) (a : archive) (r : response) :
  forwards i a r = true -> r_ended r = false.
Proof.
  unfold forwards. destruct (a_pipe a); [|discriminate].
  destruct (r_ended r); [|reflexivity]. rewrite andb_false_r. discriminate.
Qed.

(** The header block of an open response goes out under 200, or stays as it
    went out. *)
Lemma wf_commit (i : nat) (r : response) (s : Z) :
  wf_response i r -> r_ended r = false -> commit r = Some s -> s = 200.
Proof.
  intros [Hl Hd Ht Hu Hc He] Hopen. unfold commit.
  destruct (r_committed r) as [s'|] eqn:E.
  - intros [= ->]. destruct (Hc s eq_refl) as [->| ->]; [reflexivity|].
    destruct (He eq_refl) as (Hended & _). congruence.
  - destruct (Hu eq_refl) as (_ & _ & _ & ->). congruence.
Qed.

Lemma wf_on_data (i : nat) (a : archive) (r : response) (c : chunk) :
  wf_response i r -> wf_response i (on_data i a r c).
Proof.
  intros Hr. unfold on_data.
  destruct (forwards i a r) eqn:Ef; [|assumption].
  destruct (r_closed r); [assumption|].
  pose proof (forwards_open i a r Ef) as Hopen.
  pose proof (wf_commit i r) as Hs.
  destruct Hr as [Hl Hd Ht Hu Hc He].
  split; cbn; auto.
  - unfold commit. destruct (r_committed r); discriminate.
  - intros s E. left. eapply Hs; eauto. split; assumption.
  - intros E. apply Hs in E; [discriminate| split; assumption | assumption].
Qed.

Lemma wf_on_end (i : nat) (a : archive) (r : response) :
  wf_response i r -> wf_response i (on_end i a r).
Proof.
  intros Hr. unfold on_end.
  destruct (forwards i a r) eqn:Ef; [|assumption].
  pose proof (forwards_open i a r Ef) as Hopen.
  pose proof (wf_commit i r) as Hs.
  destruct Hr as [Hl Hd Ht Hu Hc He].
  split; cbn; auto.
  - unfold commit. destruct (r_committed r); discriminate.
  - intros s E. left. eapply Hs; eauto. split; assumption.
  - intros E. apply Hs in E; [discriminate| split; assumption | assumption].
Qed.

Lemma wf_on_error (i : nat) (r : response) (m : string) :
  wf_response i r -> wf_response i (snd (on_error r m)).
Proof.
  intros [Hl Hd Ht Hu Hc He]. unfold on_error.
  destruct (r_committed r) as [s|] eqn:E; cbn [snd].
  - split; cbn; auto; discriminate.
  - destruct (Hu eq_refl) as (Hb & Hopen & Hct & Hst). rewrite Hopen, Hct, Hb.
    split; cbn; auto.
    + rewrite lookup_insert_ne by discriminate. assumption.
    + right. apply lookup_insert_eq.
    + discriminate.
    + intros s [= <-]. right. reflexivity.
    + intros _. split; [reflexivity|]. split; [apply lookup_insert_eq|].
      exists m. reflexivity.
Qed.

Lemma wf_session_tick (i : nat) (a : archive) (r : response) :
  wf_archive i a -> wf_response i r ->
  wf_archive i (t_archive (session_tick i a r)) /\
  wf_response i (t_response (session_tick i a r)).
Proof.
  intros Ha Hr. unfold session_tick.
  destruct (a_ended a); [split; assumption|].
  destruct (a_queue a) as [|[name source [[|] data|]|m] q]; cbn [t_archive t_response].
  - destruct (a_finalized a) eqn:Ef; [|split; assumption].
    destruct (a_sealed a); cbn [t_archive t_response];
      (split; [|auto using wf_on_data, wf_on_end]);
      destruct Ha; split; cbn; auto.
  - split; [apply wf_dequeued | apply wf_on_data]; assumption.
  - split; [apply wf_dequeued | apply wf_on_error, wf_on_data]; assumption.
  - split; [apply wf_dequeued | apply wf_on_data]; assumption.
  - split; [apply wf_dequeued | apply wf_on_error]; assumption.
Qed.

Lemma wf_session_close (i : nat) (a : archive) (r : response) :
  wf_archive i a -> wf_response i r ->
  wf_archive i (t_archive (session_close i a r)) /\
  wf_response i (t_response (session_close i a r)).
Proof.
  intros Ha Hr. unfold session_close.
  destruct (r_closed r); [split; assumption|]. cbn [t_archive t_response].
  split; [apply wf_unpiped; assumption|].
  destruct Hr; split; cbn; auto.
Qed.

Lemma wf_put (w : world) (i : nat) (t : turn) :
  wf w -> is_Some (archives w !! i) ->
  wf_archive i (t_archive t) -> wf_response i (t_response t) ->
  wf (put i t w).
Proof.
  intros Hw Hi Ha Hr. pose proof (proj1 (wf_paired w i Hw) Hi) as Hi'.
  destruct Hw as [Hd Has Hrs]. split; cbn.
  - rewrite !dom_insert_lookup_L by assumption. exact Hd.
  - intros j a. destruct (decide (i = j)) as [->|Hne].
    + rewrite lookup_insert_eq. intros [= <-]. exact Ha.
    + rewrite lookup_insert_ne by exact Hne. apply Has.
  - intros j r. destruct (decide (i = j)) as [->|Hne].
    + rewrite lookup_insert_eq. intros [= <-]. exact Hr.
    + rewrite lookup_insert_ne by exact Hne. apply Hrs.
Qed.

(** The view of a step from one session. *)
Lemma tick_session (w : world) (i : nat) (a : archive) :
  wf w -> archives w !! i = Some a ->
  exists r, responses w !! i = Some r /\
            step (Tick i) w = (t_result (session_tick i a r), put i (session_tick i a r) w).
Proof.
  intros Hw Ha. destruct (proj1 (wf_paired w i Hw) (mk_is_Some _ _ Ha)) as [r Hr].
  exists r. split; [exact Hr|].
  apply tick_spec; try assumption. apply (wf_archives w Hw i a Ha).
Qed.

Lemma close_session (w : world) (i : nat) (r : response) :
  wf w -> responses w !! i = Some r ->
  exists a, archives w !! i = Some a /\
            step (Close i) w = (t_result (session_close i a r), put i (session_close i a r) w).
Proof.
  intros Hw Hr. destruct (proj2 (wf_paired w i Hw) (mk_is_Some _ _ Hr)) as [a Ha].
  exists a. split; [exact Ha|].
  apply close_spec; try assumption. apply (wf_responses w Hw i r Hr).
Qed.

Lemma fresh_absent_responses (w : world) : responses w !! fresh (dom (responses w)) = None.
Proof. apply not_elem_of_dom, is_fresh. Qed.

Lemma fresh_absent_archives (w : world) :
  wf w -> archives w !! fresh (dom (responses w)) = None.
Proof. intros Hw. apply not_elem_of_dom. rewrite (wf_dom w Hw). apply is_fresh. Qed.

Lemma wf_step (s : stimulus) (w : world) : wf w -> wf (snd (step s w)).
Proof.
  intros Hw. destruct s as [|i|i|fs].
  - rewrite incoming_spec by apply (wf_dom w Hw). cbn [snd].
    destruct Hw as [Hd Has Hrs]. split; cbn.
    + rewrite !dom_insert_L, Hd. reflexivity.
    + intros j a. destruct (decide (fresh (dom (responses w)) = j)) as [<-|Hne].
      * rewrite lookup_insert_eq. intros [= <-]. apply wf_fresh_archive.
      * rewrite lookup_insert_ne by exact Hne. apply Has.
    + intros j r. destruct (decide (fresh (dom (responses w)) = j)) as [<-|Hne].
      * rewrite lookup_insert_eq. intros [= <-]. apply wf_fresh_response.
      * rewrite lookup_insert_ne by exact Hne. apply Hrs.
  - destruct (archives w !! i) as [a|] eqn:Ha.
    + destruct (tick_session w i a Hw Ha) as (r & Hr & ->). cbn [snd].
      apply wf_put; [assumption|eauto| |];
        apply wf_session_tick; eauto using wf_archives, wf_responses.
    + rewrite tick_absent by assumption. exact Hw.
  - destruct (responses w !! i) as [r|] eqn:Hr.
    + destruct (close_session w i r Hw Hr) as (a & Ha & ->). cbn [snd].
      apply wf_put; [assumption|eauto| |];
        apply wf_session_close; eauto using wf_archives, wf_responses.
    + rewrite close_absent by assumption. exact Hw.
  - destruct Hw as [Hd Has Hrs]. split; assumption.
Qed.

Lemma wf_after (s : stimulus) (w w' : world) (res : result unit) :
  step s w = (res, w') -> wf w -> wf w'.
Proof. intros H Hw. pose proof (wf_step s w Hw) as H'. rewrite H in H'. exact H'. Qed.

Lemma wf_boot (fs : dirlist) : wf (boot fs).
Proof.
  split; cbn.
  - rewrite !dom_empty_L. reflexivity.
  - intros i a H. rewrite lookup_empty in H. discriminate.
  - intros i r H. rewrite lookup_empty in H. discriminate.
Qed.

Lemma wf_run (tr : list stimulus) (w : world) : wf w -> wf (snd (run tr w)).
Proof.
  revert w. induction tr as [|s tr IH]; intros w Hw; [exact Hw|].
  rewrite run_cons. apply IH, wf_step, Hw.
Qed.

Lemma reachable_wf (w : world) : reachable w -> wf w.
Proof. intros (fs & tr & ->). apply wf_run, wf_boot. Qed.

Lemma session_put_ne (w : world) (i j : nat) (t : turn) :
  i <> j -> session i (put j t w) = session i w.
Proof.
  intros Hne. unfold session, put. cbn.
  rewrite !lookup_insert_ne by congruence. reflexivity.
Qed.

(** A stimulus that is not addressed to a session leaves it as it is. *)
Lemma step_frame (w : world) (s : stimulus) (i : nat) :
  wf w -> s <> Tick i -> s <> Close i -> is_Some (responses w !! i) ->
  session i (snd (step s w)) = session i w.
Proof.
  intros Hw Ht Hc Hi. destruct s as [|j|j|fs].
  - rewrite incoming_spec by apply (wf_dom w Hw). unfold session. cbn.
    assert (fresh (dom (responses w)) <> i) as Hne.
    { intros <-. rewrite fresh_absent_responses in Hi. destruct Hi; discriminate. }
    rewrite !lookup_insert_ne by exact Hne. reflexivity.
  - assert (i <> j) by congruence.
    destruct (archives w !! j) as [a|] eqn:Ha.
    + destruct (tick_session w j a Hw Ha) as (r & Hr & ->). cbn [snd].
      apply session_put_ne. assumption.
    + rewrite tick_absent by assumption. reflexivity.
  - assert (i <> j) by congruence.
    destruct (responses w !! j) as [r|] eqn:Hr.
    + destruct (close_session w j r Hw Hr) as (a & Ha & ->). cbn [snd].
      apply session_put_ne. assumption.
    + rewrite close_absent by assumption. reflexivity.
  - reflexivity.
Qed.

Lemma run_tick_ok (w w' : world) (i : nat) (tr : list stimulus) :
  step (Tick i) w = (Ok tt, w') -> run (Tick i :: tr) w = run tr w'.
Proof. intros H. cbn [run]. rewrite H. reflexivity. Qed.

Lemma all_records_length (q : list task) (rs : list (string * chunk)) :
  all_records q = Some rs -> length q = length rs.
Proof.
  revert rs. induction q as [|t q IH]; intros rs; cbn.
  - intros [= <-]. reflexivity.
  - destruct (task_record t); [|discriminate].
    destruct (all_records q); [|discriminate].
    intros [= <-]. cbn. f_equal. apply IH. reflexivity.
Qed.

Ltac conjs := repeat match goal with |- _ /\ _ => split end.

(** As many turns as the queue has entries, all readable: the archive is
    drained and the response has their records, in order. *)
Lemma drain (q : list task) :
  forall (rs : list (string * chunk)) (w : world) (i : nat) (a : archive) (r : response),
    wf w ->
    archives w !! i = Some a ->
    responses w !! i = Some r ->
    a_queue a = q ->
    all_records q = Some rs ->
    a_ended a = false ->
    a_pipe a = Some i ->
    r_ended r = false ->
    r_closed r = false ->
    exists w', run (repeat (Tick i) (length q)) w = ([], w') /\
               wf w' /\
               archives w' !! i = Some (drained a rs) /\
               responses w' !! i = Some (fed r rs) /\
               console w' = console w /\
               cwd w' = cwd w.
Proof.
  induction q as [|t q IH]; intros rs w i a r Hw Ha Hr Hq Hrs Hlive Hpipe Hopen Hconn.
  - injection Hrs as <-. exists w. cbn [length repeat run].
    conjs; try assumption; try reflexivity.
    + rewrite Ha. f_equal. destruct a; cbn in *. subst.
      unfold drained. cbn. rewrite app_nil_r, Z.add_0_r. reflexivity.
    + rewrite Hr. f_equal. destruct r; cbn in *.
      unfold fed. cbn. rewrite app_nil_r. reflexivity.
  - cbn in Hrs. destruct (task_record t) as [[n c]|] eqn:Et; [|discriminate].
    destruct (all_records q) as [rs'|] eqn:Eq; [|discriminate].
    injection Hrs as <-.
    destruct (tick_session w i a Hw Ha) as (r0 & Hr0 & Hstep).
    assert (r0 = r) as -> by congruence.
    assert (session_tick i a r =
            Turn (Ok tt) (dequeued a q (Some (n, c))) (appended r (VBuffer c)) []) as Et'.
    { unfold session_tick. rewrite Hlive, Hq.
      destruct t as [name source [[|] data|]|m]; try discriminate;
        cbn in Et; injection Et as <- <-;
        unfold on_data, forwards; cbn [dequeued a_pipe];
        rewrite Hpipe, Nat.eqb_refl, Hopen, Hconn; reflexivity. }
    assert (written (VBuffer c) = [VBuffer c]) as Hwc.
    { destruct t as [name source [[|] data|]|m]; try discriminate;
        cbn in Et; injection Et as <- <-; reflexivity. }
    rewrite Et' in Hstep. cbn [t_result] in Hstep.
    set (w1 := put i (Turn (Ok tt) (dequeued a q (Some (n, c))) (appended r (VBuffer c)) []) w)
      in *.
    assert (wf w1) as Hw1.
    { exact (wf_after _ _ _ _ Hstep Hw). }
    destruct (IH rs' w1 i (dequeued a q (Some (n, c))) (appended r (VBuffer c)) Hw1)
      as (w' & Hrun & Hw' & Ha' & Hr' & Hco' & Hc'); try reflexivity; try assumption.
    + unfold w1, put. cbn. apply lookup_insert_eq.
    + unfold w1, put. cbn. apply lookup_insert_eq.
    + exists w'. cbn [length repeat]. rewrite (run_tick_ok w w1) by exact Hstep.
      conjs; try assumption.
      3: { rewrite Hco'. unfold w1, put. cbn. apply app_nil_r. }
      * rewrite Ha'. f_equal. unfold drained, dequeued, total_size. cbn.
        rewrite <- app_assoc, Z.add_assoc. reflexivity.
      * rewrite Hr'. f_equal. unfold fed, appended. cbn -[written].
        rewrite Hwc, <- app_assoc.
        replace (match rs' with
                 | [] => commit r
                 | _ :: _ =>
                     commit (Response (r_status r) (r_headers r) (commit r)
                                      (r_body r ++ [VBuffer c]) (r_ended r) (r_closed r)
                                      (r_listeners r))
                 end) with (commit r); [reflexivity|].
        destruct rs'; [reflexivity|]. unfold commit. cbn.
        destruct (r_committed r); reflexivity.
Qed.

Lemma run_quiet_app (tr1 tr2 : list stimulus) :
  forall wa wb, run tr1 wa = ([], wb) -> run (tr1 ++ tr2) wa = run tr2 wb.
Proof.
  induction tr1 as [|s tr1 IH]; intros wa wb; cbn [run app].
  - intros [= ->]. reflexivity.
  - destruct (step s wa) as [[u|e] wc]; [apply IH|].
    destruct (run tr1 wc). discriminate.
Qed.

(** A request up to its central directory: the handler's turn, the entries
    and the central directory; nothing escapes, and the response is still
    open. *)
Lemma serve_records (w : world) (rs : list (string * chunk)) :
  wf w ->
  all_records (directory_tasks (cwd w) "Test/" DestFalse) = Some rs ->
  exists w', run (Incoming :: repeat (Tick (fresh (dom (responses w)))) (length rs + 1)) w =
               ([], w') /\
             wf w' /\
             archives w' !! fresh (dom (responses w)) =
               Some (awaiting_end (fresh (dom (responses w))) rs) /\
             responses w' !! fresh (dom (responses w)) =
               Some (all_out (fresh (dom (responses w))) rs) /\
             console w' = console w /\
             cwd w' = cwd w.
Proof.
  intros Hw Hrs. set (n := fresh (dom (responses w))).
  pose proof (incoming_spec w (wf_dom w Hw)) as Hin. fold n in Hin.
  set (w1 := World (<[n := fresh_archive (cwd w) n]> (archives w))
                   (<[n := fresh_response n]> (responses w)) (console w) (cwd w)) in *.
  assert (wf w1) as Hw1.
  { exact (wf_after _ _ _ _ Hin Hw). }
  destruct (drain (directory_tasks (cwd w) "Test/" DestFalse) rs w1 n
                  (fresh_archive (cwd w) n) (fresh_response n) Hw1)
    as (w2 & Hrun & Hw2 & Ha2 & Hr2 & Hco2 & Hc2); try reflexivity; try assumption.
  { unfold w1. cbn. apply lookup_insert_eq. }
  { unfold w1. cbn. apply lookup_insert_eq. }
  cbn [a_queue fresh_archive] in Hrun.
  rewrite (all_records_length _ _ Hrs) in Hrun.
  destruct (tick_session w2 n _ Hw2 Ha2) as (r2 & Hr2' & Hstep2).
  assert (r2 = fed (fresh_response n) rs) as -> by congruence.
  set (t3 := session_tick n (drained (fresh_archive (cwd w) n) rs) (fed (fresh_response n) rs))
    in *.
  exists (put n t3 w2).
  assert (t_result t3 = Ok tt /\ t_archive t3 = awaiting_end n rs /\
          t_response t3 = all_out n rs /\ t_log t3 = []) as (E3 & Ea & Er & El3).
  { unfold t3, session_tick, on_data, forwards, drained, fed, all_out, awaiting_end,
      appended, commit.
    cbn. rewrite ?Nat.eqb_refl. cbn.
    destruct rs; cbn; conjs; try reflexivity; rewrite Z.add_0_r, Z.add_0_l; reflexivity. }
  conjs.
  - cbn [run]. rewrite Hin. rewrite repeat_app.
    rewrite (run_quiet_app _ _ _ _ Hrun). cbn [repeat run].
    rewrite Hstep2, E3. reflexivity.
  - exact (wf_after _ _ _ _ Hstep2 Hw2).
  - unfold put. cbn [archives]. rewrite lookup_insert_eq, Ea. reflexivity.
  - unfold put. cbn [responses]. rewrite lookup_insert_eq, Er. reflexivity.
  - unfold put. cbn [console]. rewrite El3, app_nil_r, Hco2. reflexivity.
  - unfold put. cbn [cwd]. rewrite Hc2. reflexivity.
Qed.

(** The last turn of a served request: the stream ends, the handler's
    ['end'] listener logs, the pipe ends the response. *)
Lemma end_turn (n : nat) (rs : list (string * chunk)) :
  session_tick n (awaiting_end n rs) (all_out n rs) =
    Turn (Ok tt) (sealed_archive n rs) (served n rs) [wrote_line (awaiting_end n rs)].
Proof.
  unfold session_tick, on_end, forwards, awaiting_end, all_out, sealed_archive, served, commit.
  cbn. rewrite Nat.eqb_refl. reflexivity.
Qed.

(** A whole request: the handler's turn, the entries, the central directory
    and the end of the stream; nothing escapes. *)
Lemma serve_ok (w : world) (rs : list (string * chunk)) :
  wf w ->
  all_records (directory_tasks (cwd w) "Test/" DestFalse) = Some rs ->
  exists w', run (request_trace (fresh (dom (responses w))) (length rs)) w = ([], w') /\
             wf w' /\
             archives w' !! fresh (dom (responses w)) =
               Some (sealed_archive (fresh (dom (responses w))) rs) /\
             responses w' !! fresh (dom (responses w)) =
               Some (served (fresh (dom (responses w))) rs) /\
             console w' = console w ++ [("Archive wrote %d bytes", [VNum (total_size rs)])] /\
             cwd w' = cwd w.
Proof.
  intros Hw Hrs.
  destruct (serve_records w rs Hw Hrs) as (w1 & Hrun & Hw1 & Ha1 & Hr1 & Hco1 & Hc1).
  set (n := fresh (dom (responses w))) in *.
  destruct (tick_session w1 n _ Hw1 Ha1) as (r1 & Hr1' & Hstep).
  assert (r1 = all_out n rs) as -> by congruence.
  rewrite end_turn in Hstep. cbn [t_result] in Hstep.
  eexists. conjs.
  - unfold request_trace.
    replace (length rs + 2)%nat with ((length rs + 1) + 1)%nat by lia.
    rewrite repeat_app, app_comm_cons, (run_quiet_app _ _ _ _ Hrun).
    cbn [repeat run]. rewrite Hstep. reflexivity.
  - exact (wf_after _ _ _ _ Hstep Hw1).
  - unfold put. cbn [archives t_archive]. apply lookup_insert_eq.
  - unfold put. cbn [responses t_response]. apply lookup_insert_eq.
  - unfold put. cbn [console t_log]. rewrite Hco1. reflexivity.
  - exact Hc1.
Qed.

(** ** The directory and its archive *)






(** ** Sanitising a path of plain names *)






























Lemma directory_tasks_test (fs kids : dirlist) :
  child "Test" fs = Some (Dir kids) ->
  directory_tasks fs "Test/" DestFalse =
    map (fun m => Append (entry_name EmptyString (fst m) (snd m))
                         (join_path "Test/" (fst m)) (snd m))
        (glob_dir kids).
Proof.
  intros H. unfold directory_tasks.
  change (path_components "Test/") with ["Test"].
  cbn [locate]. rewrite H. reflexivity.
Qed.



(** When [Test] is a regular file the scan fails; when there is no [Test]
    nothing is queued. *)
Lemma directory_tasks_file (fs : dirlist) (rd : bool) (d : bytes) :
  child "Test" fs = Some (File rd d) ->
  directory_tasks fs "Test/" DestFalse = [GlobFailure (not_a_directory "Test/")].
Proof.
  intros H. unfold directory_tasks.
  change (path_components "Test/") with ["Test"].
  cbn [locate]. rewrite H. reflexivity.
Qed.

Lemma directory_tasks_missing (fs : dirlist) :
  child "Test" fs = None ->
  directory_tasks fs "Test/" DestFalse = [].
Proof.
  intros H. unfold directory_tasks.
  change (path_components "Test/") with ["Test"].
  cbn [locate]. rewrite H. reflexivity.
Qed.


(** ** Unpacking the body *)





Lemma scope_archiver (rq rs ar : value) :
  lookup_var "archiver" (call_scope rq rs ar) = Some (VBuiltin "archiver").
Proof. reflexivity. Qed.


(** * The claims *)

(** C1 (the code breaks it).  A directory whose second file cannot be read:
    the archive is piped into the response while it is built, so the first
    file has gone out under status 200 when the failure comes.  The error
    listener sets the status code of the object to 500 and calls [send],
    which is refused because the header block is out: the exception leaves
    the turn, and the response stays a 200 with a partial archive body and
    no error payload.  When the only file cannot be read it is no
    different: the header of its entry has gone out under 200 before the
    file is opened. *)
Theorem late_failure_keeps_200 :
  (fst (run [Incoming; Tick 0; Tick 0] (boot ex_half)) = [ERR_HTTP_HEADERS_SENT] /\
   exists r, responses (snd (run [Incoming; Tick 0; Tick 0] (boot ex_half))) !! 0%nat = Some r /\
             r_committed r = Some 200 /\
             r_body r = [VBuffer (FileRecord "a.txt" [Byte.x68; Byte.x69])]) /\
  (fst (run [Incoming; Tick 0] (boot ex_locked)) = [ERR_HTTP_HEADERS_SENT] /\
   exists r, responses (snd (run [Incoming; Tick 0] (boot ex_locked))) !! 0%nat = Some r /\
             r_committed r = Some 200 /\
             forall m, ~ In (VObject [("error", VStr m)]) (r_body r)).
Proof.
  split; (split; [|eexists]); vm_compute; repeat split; try reflexivity.
  intros m [].
Qed.

(** C2.  The listener that [downloadZip] leaves on the response for
    ['close'] names [res], which no scope around it binds: not the call's
    ([request], [respose], [archive]), not the module's ([archiver]), not
    Node's.  So whenever a response of the endpoint closes, the turn ends in
    [ReferenceError: res is not defined]. *)
Theorem close_callback_unbound_res (w : world) (i : nat) (r : response) :
  reachable w ->
  responses w !! i = Some r ->
  r_closed r = false ->
  In ("close", Closure CbResponseClose (call_scope (VRequest i) (VResponse i) (VArchive i)))
     (r_listeners r) /\
  (forall rq rs ar, lookup_var "res" (call_scope rq rs ar) = None) /\
  fst (step (Close i) w) = Throw (ReferenceError "res").
Proof.
  intros Hw Hr Hopen. apply reachable_wf in Hw. split; [|split].
  - rewrite (wr_listeners i r (wf_responses w Hw i r Hr)). cbn. auto.
  - intros. reflexivity.
  - destruct (close_session w i r Hw Hr) as (a & Ha & ->). cbn [fst].
    unfold session_close. rewrite Hopen. reflexivity.
Qed.

(** C2 at work: the response of the first request, right after the handler
    returned. *)
Lemma close_callback_unbound_res_witness :
  In ("close", Closure CbResponseClose (call_scope (VRequest 0) (VResponse 0) (VArchive 0)))
     (r_listeners (fresh_response 0)) /\
  (forall rq rs ar, lookup_var "res" (call_scope rq rs ar) = None) /\
  fst (step (Close 0) (snd (step Incoming (boot ex_tree)))) = Throw (ReferenceError "res").
Proof.
  apply (close_callback_unbound_res (snd (step Incoming (boot ex_tree))) 0 (fresh_response 0)).
  - apply reachable_step, reachable_boot.
  - vm_compute. reflexivity.
  - reflexivity.
Defined.




(** C4 (the code breaks it).  An empty [Test/] directory is served in full;
    when the response then closes, the [ReferenceError] of the close
    listener leaves the turn uncaught. *)
Theorem close_error_escapes :
  fst (run [Incoming; Tick 0; Tick 0; Close 0] (boot ex_empty)) =
    [ReferenceError "res"].
Proof. vm_compute. reflexivity. Qed.





(** C7.  The response metadata is in place before the first body byte.  In
    every world the loop can reach, when the handler of an incoming request
    returns, the new response carries [Content-Disposition: attachment;
    filename="folder.zip"], its body is empty and no header block has gone
    out; and whatever happens afterwards (any stimuli, of this request or of
    others), the response still carries that header, and it has a body only
    once its header block is out. *)
Theorem metadata_before_body (w : world) (tr : list stimulus) (r : response) :
  reachable w ->
  responses (snd (run tr (snd (step Incoming w)))) !! fresh (dom (responses w)) = Some r ->
  (exists r0, responses (snd (step Incoming w)) !! fresh (dom (responses w)) = Some r0 /\
              r_headers r0 !! "Content-Disposition" = Some (content_disposition "folder.zip") /\
              r_body r0 = [] /\ r_committed r0 = None) /\
  r_headers r !! "Content-Disposition" = Some (content_disposition "folder.zip") /\
  (r_committed r = None -> r_body r = []).
Proof.
  intros Hw Hr. pose proof (reachable_wf w Hw) as Hwf. split.
  - exists (fresh_response (fresh (dom (responses w)))).
    rewrite incoming_spec by apply (wf_dom w Hwf). cbn [snd responses].
    rewrite lookup_insert_eq. repeat split; reflexivity.
  - assert (wf (snd (run tr (snd (step Incoming w))))) as Hwf'
      by apply wf_run, wf_step, Hwf.
    destruct (wf_responses _ Hwf' _ _ Hr) as [Hl Hd Ht Hu Hc He].
    split; [exact Hd|]. intros E. apply Hu, E.
Qed.

(** C7 at work on [ex_tree]: the response after the first file went out. *)
Lemma metadata_before_body_witness :
  r_headers (appended (fresh_response 0) (VBuffer (FileRecord "a.txt" [Byte.x68; Byte.x69])))
    !! "Content-Disposition" = Some (content_disposition "folder.zip") /\
  (r_committed (appended (fresh_response 0)
                         (VBuffer (FileRecord "a.txt" [Byte.x68; Byte.x69]))) = None ->
   r_body (appended (fresh_response 0)
                    (VBuffer (FileRecord "a.txt" [Byte.x68; Byte.x69]))) = []).
Proof.
  apply (metadata_before_body (boot ex_tree) [Tick 0]).
  - apply reachable_boot.
  - vm_compute. reflexivity.
Defined.

(** C8.  Every call of [downloadZip] builds an archiver of its own: the
    instance is new to the heap, a ZIP archiver at level 9 wired to the
    response of this request, the sessions that were there are untouched by
    the call, and afterwards a stimulus for one session changes neither the
    archive nor the response of another. *)
Theorem archiver_is_per_request (w : world) :
  reachable w ->
  archives w !! fresh (dom (responses w)) = None /\
  (exists a, archives (snd (step Incoming w)) !! fresh (dom (responses w)) = Some a /\
             a_format a = "zip" /\ a_level a = 9 /\
             a_pipe a = Some (fresh (dom (responses w))) /\
             a_listeners a = archive_listeners (fresh (dom (responses w))) /\
             a_entries a = [] /\ a_pointer a = 0) /\
  (forall i, is_Some (responses w !! i) ->
             session i (snd (step Incoming w)) = session i w) /\
  (forall i j, i <> j -> is_Some (responses w !! i) ->
               session i (snd (step (Tick j) w)) = session i w /\
               session i (snd (step (Close j) w)) = session i w).
Proof.
  intros Hw. apply reachable_wf in Hw. split; [|split; [|split]].
  - apply fresh_absent_archives, Hw.
  - exists (fresh_archive (cwd w) (fresh (dom (responses w)))).
    rewrite incoming_spec by apply (wf_dom w Hw). cbn [snd archives].
    rewrite lookup_insert_eq. repeat split; reflexivity.
  - intros i Hi. apply step_frame; try assumption; discriminate.
  - intros i j Hne Hi. split; apply step_frame; try assumption; congruence.
Qed.

(** C8 at work: a second request while the first is being served. *)
Lemma archiver_is_per_request_witness :
  archives (snd (run [Incoming; Tick 0] (boot ex_tree)))
    !! fresh (dom (responses (snd (run [Incoming; Tick 0] (boot ex_tree))))) = None /\
  exists a, archives (snd (step Incoming (snd (run [Incoming; Tick 0] (boot ex_tree)))))
              !! fresh (dom (responses (snd (run [Incoming; Tick 0] (boot ex_tree))))) = Some a /\
            a_format a = "zip" /\ a_level a = 9 /\
            a_pipe a = Some (fresh (dom (responses (snd (run [Incoming; Tick 0] (boot ex_tree)))))) /\
            a_listeners a =
              archive_listeners (fresh (dom (responses (snd (run [Incoming; Tick 0] (boot ex_tree)))))) /\
            a_entries a = [] /\ a_pointer a = 0.
Proof.
  pose proof (archiver_is_per_request (snd (run [Incoming; Tick 0] (boot ex_tree)))) as H.
  destruct H as (H1 & H2 & _).
  - apply reachable_run, reachable_boot.
  - split; [exact H1 | exact H2].
Defined.



(** C10.  The attachment metadata comes first and is there on every path.
    When the handler's turn is over, the archive is piped and finalized, and
    the response carries the [folder.zip] attachment header with nothing
    sent yet.  The call of [attachment] stands before [pipe], [directory] and
    [finalize]: handed a response whose header block is already out, the
    handler stops at [attachment] with [ERR_HTTP_HEADERS_SENT], and the
    archiver it has built by then has the two listeners of lines 9 and 14
    and nothing else: no pipe, no entry queued, not finalized.  Every
    response [downloadZip] was called with carries the header, whatever
    happened since; so a response that went out under status 500 carries
    it too, with the ZIP content type, next to its JSON error body. *)
Theorem attachment_comes_first (w : world) (i : nat) (r : response) :
  reachable w ->
  responses w !! i = Some r ->
  (exists a0 r0,
     archives (snd (step Incoming w)) !! fresh (dom (responses w)) = Some a0 /\
     responses (snd (step Incoming w)) !! fresh (dom (responses w)) = Some r0 /\
     a_pipe a0 = Some (fresh (dom (responses w))) /\ a_finalized a0 = true /\
     r_headers r0 !! "Content-Disposition" = Some (content_disposition "folder.zip") /\
     r_committed r0 = None /\ r_body r0 = []) /\
  (forall rq s,
     r_committed r = Some s ->
     fst (downloadZip rq (VResponse i) w) = Throw ERR_HTTP_HEADERS_SENT /\
     exists a, archives (snd (downloadZip rq (VResponse i) w)) !! fresh (dom (archives w))
                 = Some a /\
               a_listeners a =
                 [("error", Closure CbArchiveError
                              (call_scope rq (VResponse i) (VArchive (fresh (dom (archives w))))));
                  ("end", Closure CbArchiveEnd
                            (call_scope rq (VResponse i) (VArchive (fresh (dom (archives w))))))] /\
               a_pipe a = None /\ a_queue a = [] /\ a_finalized a = false) /\
  r_headers r !! "Content-Disposition" = Some (content_disposition "folder.zip") /\
  (r_committed r = Some 500 ->
   r_headers r !! "Content-Type" = Some (set_charset (mime_lookup (extname "folder.zip"))) /\
   exists m, r_body r = [VObject [("error", VStr m)]]).
Proof.
  intros Hw Hr. apply reachable_wf in Hw. split; [|split].
  - exists (fresh_archive (cwd w) (fresh (dom (responses w)))),
           (fresh_response (fresh (dom (responses w)))).
    rewrite incoming_spec by apply (wf_dom w Hw). cbn [snd archives responses].
    rewrite !lookup_insert_eq. repeat split; reflexivity.
  - intros rq s Hs. destruct w as [am rm co fs]. cbn [archives responses] in Hr |- *.
    destruct r as [st hs cm body rended rclosed rls]. cbn in Hs. subst cm.
    assert (downloadZip rq (VResponse i) (World am rm co fs) =
            (Throw ERR_HTTP_HEADERS_SENT,
             World (<[fresh (dom am) :=
                        Archive "zip" 9
                          [("error", Closure CbArchiveError
                                       (call_scope rq (VResponse i) (VArchive (fresh (dom am)))));
                           ("end", Closure CbArchiveEnd
                                     (call_scope rq (VResponse i) (VArchive (fresh (dom am)))))]
                          None [] false [] 0 false false]> am) rm co fs)) as E.
    { unfold downloadZip. unfold var at 1. unfold bind at 1. rewrite scope_archiver.
      exec. reflexivity. }
    rewrite E. cbn [fst snd archives]. rewrite lookup_insert_eq.
    split; [reflexivity|]. eexists. split; [reflexivity|].
    repeat split; reflexivity.
  - destruct (wf_responses w Hw i r Hr) as [Hl Hd Ht Hu Hc He].
    split; [exact Hd|]. intros E.
    destruct (He E) as (_ & Hct & Hb). auto.
Qed.

(** C10 at work on [ex_file], where [Test] is a regular file: the scan
    fails before anything is written, and the request is answered under
    status 500. *)
Lemma attachment_comes_first_witness :
  (fst (downloadZip (VRequest 1) (VResponse 0) (snd (run [Incoming; Tick 0] (boot ex_file)))) =
     Throw ERR_HTTP_HEADERS_SENT /\
   exists a, archives (snd (downloadZip (VRequest 1) (VResponse 0)
                              (snd (run [Incoming; Tick 0] (boot ex_file)))))
               !! fresh (dom (archives (snd (run [Incoming; Tick 0] (boot ex_file))))) = Some a /\
             a_listeners a =
               [("error", Closure CbArchiveError
                            (call_scope (VRequest 1) (VResponse 0)
                               (VArchive (fresh (dom (archives
                                  (snd (run [Incoming; Tick 0] (boot ex_file)))))))));
                ("end", Closure CbArchiveEnd
                          (call_scope (VRequest 1) (VResponse 0)
                             (VArchive (fresh (dom (archives
                                (snd (run [Incoming; Tick 0] (boot ex_file)))))))))] /\
             a_pipe a = None /\ a_queue a = [] /\ a_finalized a = false) /\
  r_headers (snd (on_error (fresh_response 0) (not_a_directory "Test/")))
    !! "Content-Disposition" = Some (content_disposition "folder.zip") /\
  r_headers (snd (on_error (fresh_response 0) (not_a_directory "Test/")))
    !! "Content-Type" = Some (set_charset (mime_lookup (extname "folder.zip"))) /\
  exists m, r_body (snd (on_error (fresh_response 0) (not_a_directory "Test/"))) =
            [VObject [("error", VStr m)]].
Proof.
  destruct (attachment_comes_first
              (snd (run [Incoming; Tick 0] (boot ex_file))) 0
              (snd (on_error (fresh_response 0) (not_a_directory "Test/"))))
    as (_ & Ho & Hd & He).
  - apply reachable_run, reachable_boot.
  - vm_compute. reflexivity.
  - split; [apply (Ho (VRequest 1) 500); vm_compute; reflexivity|].
    split; [exact Hd|]. apply He. vm_compute. reflexivity.
Defined.

(** * Further properties of the code *)

(** ** Histories of a response *)

Lemma step_frame_response (w : world) (s : stimulus) (i : nat) :
  wf w -> s <> Tick i -> s <> Close i -> is_Some (responses w !! i) ->
  responses (snd (step s w)) !! i = responses w !! i.
Proof.
  intros Hw Ht Hc Hi. exact (f_equal snd (step_frame w s i Hw Ht Hc Hi)).
Qed.

(** A relation between an earlier and a later state of a response that every
    turn respects holds along every run. *)
Lemma response_history (R : response -> response -> Prop) :
  (forall r, R r r) ->
  (forall r1 r2 r3, R r1 r2 -> R r2 r3 -> R r1 r3) ->
  (forall i a r, wf_archive i a -> wf_response i r ->
                 R r (t_response (session_tick i a r))) ->
  (forall i a r, wf_archive i a -> wf_response i r ->
                 R r (t_response (session_close i a r))) ->
  forall tr w i r,
    wf w -> responses w !! i = Some r ->
    exists r', responses (snd (run tr w)) !! i = Some r' /\ R r r'.
Proof.
  intros Hrefl Htrans Htick Hclose.
  induction tr as [|s tr IH]; intros w i r Hw Hr.
  - exists r. split; [exact Hr | apply Hrefl].
  - rewrite run_cons.
    assert (exists r1, responses (snd (step s w)) !! i = Some r1 /\ R r r1)
      as (r1 & Hr1 & HR1).
    { destruct s as [|j|j|fs].
      - exists r. split; [|apply Hrefl].
        rewrite step_frame_response; try assumption; try discriminate; eauto.
      - destruct (decide (j = i)) as [->|Hne].
        + destruct (proj2 (wf_paired w i Hw) (mk_is_Some _ _ Hr)) as [a Ha].
          destruct (tick_session w i a Hw Ha) as (r0 & Hr0 & ->).
          assert (r0 = r) as -> by congruence.
          eexists. split; [unfold put; cbn [snd responses]; apply lookup_insert_eq|].
          apply Htick; eauto using wf_archives, wf_responses.
        + exists r. split; [|apply Hrefl].
          rewrite step_frame_response; try assumption; try congruence; eauto.
      - destruct (decide (j = i)) as [->|Hne].
        + destruct (close_session w i r Hw Hr) as (a & Ha & ->).
          eexists. split; [unfold put; cbn [snd responses]; apply lookup_insert_eq|].
          apply Hclose; eauto using wf_archives, wf_responses.
        + exists r. split; [|apply Hrefl].
          rewrite step_frame_response; try assumption; try congruence; eauto.
      - exists r. split; [exact Hr | apply Hrefl]. }
    destruct (IH (snd (step s w)) i r1 (wf_step s w Hw) Hr1) as (r' & Hr' & HR').
    exists r'. split; [exact Hr' | eapply Htrans; eassumption].
Qed.

(** A property of a response that holds of a new one and that every turn
    keeps holds in every world the loop reaches. *)
Lemma response_invariant (P : response -> Prop) :
  (forall i, P (fresh_response i)) ->
  (forall i a r, wf_archive i a -> wf_response i r -> P r ->
                 P (t_response (session_tick i a r))) ->
  (forall i a r, wf_archive i a -> wf_response i r -> P r ->
                 P (t_response (session_close i a r))) ->
  forall w i r, reachable w -> responses w !! i = Some r -> P r.
Proof.
  intros Hnew Htick Hclose.
  assert (forall tr w, wf w -> (forall i r, responses w !! i = Some r -> P r) ->
                       forall i r, responses (snd (run tr w)) !! i = Some r -> P r) as Hrun.
  { induction tr as [|s tr IH]; intros w Hw Hall; [exact Hall|].
    rewrite run_cons. apply IH; [apply wf_step, Hw|].
    intros i r. destruct s as [|j|j|fs].
    - rewrite incoming_spec by apply (wf_dom w Hw). cbn [snd responses].
      destruct (decide (fresh (dom (responses w)) = i)) as [<-|Hne].
      + rewrite lookup_insert_eq. intros [= <-]. apply Hnew.
      + rewrite lookup_insert_ne by exact Hne. apply Hall.
    - destruct (archives w !! j) as [a|] eqn:Ha.
      + destruct (tick_session w j a Hw Ha) as (r0 & Hr0 & ->).
        unfold put. cbn [snd responses].
        destruct (decide (j = i)) as [->|Hne].
        * rewrite lookup_insert_eq. intros [= <-].
          apply Htick; eauto using wf_archives, wf_responses.
        * rewrite lookup_insert_ne by exact Hne. apply Hall.
      + rewrite tick_absent by assumption. apply Hall.
    - destruct (responses w !! j) as [r0|] eqn:Hr0.
      + destruct (close_session w j r0 Hw Hr0) as (a & Ha & ->).
        unfold put. cbn [snd responses].
        destruct (decide (j = i)) as [->|Hne].
        * rewrite lookup_insert_eq. intros [= <-].
          apply Hclose; eauto using wf_archives, wf_responses.
        * rewrite lookup_insert_ne by exact Hne. apply Hall.
      + rewrite close_absent by assumption. apply Hall.
    - apply Hall. }
  intros w i r (fs & tr & ->). apply Hrun; [apply wf_boot|].
  intros j r0 H. cbn in H. rewrite lookup_empty in H. discriminate.
Qed.

Lemma kept_refl (r : response) : kept_on_the_wire r r.
Proof.
  split; [auto|]. split; [exists []; symmetry; apply app_nil_r | auto].
Qed.

Lemma kept_trans (r1 r2 r3 : response) :
  kept_on_the_wire r1 r2 -> kept_on_the_wire r2 r3 -> kept_on_the_wire r1 r3.
Proof.
  intros (Hc1 & (m1 & Hb1) & He1) (Hc2 & (m2 & Hb2) & He2). split; [auto|]. split.
  - exists (m1 ++ m2). rewrite Hb2, Hb1, app_assoc. reflexivity.
  - intros E. destruct (He1 E) as (E2 & Hb). destruct (He2 E2) as (E3 & Hb').
    split; [exact E3 | congruence].
Qed.

Lemma commit_sticky (r : response) (s : Z) : r_committed r = Some s -> commit r = Some s.
Proof. intros E. unfold commit. rewrite E. reflexivity. Qed.

Lemma kept_on_data (i : nat) (a : archive) (r : response) (c : chunk) :
  kept_on_the_wire r (on_data i a r c).
Proof.
  unfold on_data. destruct (forwards i a r) eqn:Ef; [|apply kept_refl].
  destruct (r_closed r); [apply kept_refl|].
  pose proof (forwards_open i a r Ef) as Hopen.
  split; [intros s E; apply commit_sticky, E|]. split.
  - eexists. reflexivity.
  - congruence.
Qed.

Lemma kept_on_end (i : nat) (a : archive) (r : response) :
  kept_on_the_wire r (on_end i a r).
Proof.
  unfold on_end. destruct (forwards i a r) eqn:Ef; [|apply kept_refl].
  split; [intros s E; apply commit_sticky, E|]. split.
  - exists []. symmetry. apply app_nil_r.
  - auto.
Qed.

Lemma kept_on_error (r : response) (m : string) :
  kept_on_the_wire r (snd (on_error r m)).
Proof.
  unfold on_error. destruct (r_committed r) as [s|] eqn:E; cbn [snd].
  - split; [cbn; congruence|]. split; [exists []; symmetry; apply app_nil_r | auto].
  - destruct (r_ended r) eqn:Ee.
    + split; [congruence|]. split; [exists []; symmetry; apply app_nil_r | auto].
    + split; [congruence|]. split; [eexists; reflexivity | congruence].
Qed.

Lemma kept_session_tick (i : nat) (a : archive) (r : response) :
  kept_on_the_wire r (t_response (session_tick i a r)).
Proof.
  unfold session_tick. destruct (a_ended a); [apply kept_refl|].
  destruct (a_queue a) as [|[name source [[|] data|]|m] q]; cbn [t_response].
  - destruct (a_finalized a); [|apply kept_refl].
    destruct (a_sealed a); cbn [t_response]; [apply kept_on_end | apply kept_on_data].
  - apply kept_on_data.
  - eapply kept_trans; [apply kept_on_data | apply kept_on_error].
  - apply kept_on_data.
  - apply kept_on_error.
Qed.

Lemma kept_session_close (i : nat) (a : archive) (r : response) :
  kept_on_the_wire r (t_response (session_close i a r)).
Proof.
  unfold session_close. destruct (r_closed r); cbn [t_response]; [apply kept_refl|].
  split; [auto|]. split; [exists []; symmetry; apply app_nil_r | auto].
Qed.

(** X1.  What has gone out is never taken back.  Along every run, whatever
    the stimuli, the status line a response went out under stays the same,
    its body only grows at the end, and once the response has ended its body
    does not change any more. *)
Theorem nothing_sent_is_taken_back (w : world) (tr : list stimulus) (i : nat)
    (r : response) :
  reachable w ->
  responses w !! i = Some r ->
  exists r', responses (snd (run tr w)) !! i = Some r' /\
             (forall s, r_committed r = Some s -> r_committed r' = Some s) /\
             (exists more, r_body r' = r_body r ++ more) /\
             (r_ended r = true -> r_ended r' = true /\ r_body r' = r_body r).
Proof.
  intros Hw Hr. apply reachable_wf in Hw.
  apply (response_history kept_on_the_wire); try assumption.
  - apply kept_refl.
  - apply kept_trans.
  - intros. apply kept_session_tick.
  - intros. apply kept_session_close.
Qed.

(** X1 at work on [ex_tree]: the first file is out; the second entry and the
    close follow. *)
Lemma nothing_sent_is_taken_back_witness :
  exists r', responses (snd (run [Tick 0; Close 0] (snd (run [Incoming; Tick 0] (boot ex_tree)))))
               !! 0%nat = Some r' /\
             (forall s, r_committed (appended (fresh_response 0)
                                     (VBuffer (FileRecord "a.txt" [Byte.x68; Byte.x69])))
                        = Some s -> r_committed r' = Some s) /\
             (exists more, r_body r' =
                           r_body (appended (fresh_response 0)
                                     (VBuffer (FileRecord "a.txt" [Byte.x68; Byte.x69])))
                           ++ more) /\
             (r_ended (appended (fresh_response 0)
                         (VBuffer (FileRecord "a.txt" [Byte.x68; Byte.x69]))) = true ->
              r_ended r' = true /\
              r_body r' = r_body (appended (fresh_response 0)
                                    (VBuffer (FileRecord "a.txt" [Byte.x68; Byte.x69])))).
Proof.
  apply (nothing_sent_is_taken_back (snd (run [Incoming; Tick 0] (boot ex_tree)))
           [Tick 0; Close 0] 0).
  - apply reachable_run, reachable_boot.
  - vm_compute. reflexivity.
Defined.

Lemma records_app (l1 l2 : list value) :
  filter (fun v => is_record v = true) (l1 ++ l2) =
  filter (fun v => is_record v = true) l1 ++ filter (fun v => is_record v = true) l2.
Proof. apply filter_app. Qed.

Lemma after_close_refl (r : response) : kept_after_close r r.
Proof. intros E. auto. Qed.

Lemma after_close_trans (r1 r2 r3 : response) :
  kept_after_close r1 r2 -> kept_after_close r2 r3 -> kept_after_close r1 r3.
Proof.
  intros H12 H23 E. destruct (H12 E) as (E2 & Hb).
  destruct (H23 E2) as (E3 & Hb'). split; [exact E3 | congruence].
Qed.

Lemma after_close_on_data (i : nat) (a : archive) (r : response) (c : chunk) :
  kept_after_close r (on_data i a r c).
Proof.
  intros E. unfold on_data. rewrite E. destruct (forwards i a r); auto.
Qed.

Lemma after_close_on_end (i : nat) (a : archive) (r : response) :
  kept_after_close r (on_end i a r).
Proof.
  intros E. unfold on_end. destruct (forwards i a r); cbn; auto.
Qed.

Lemma after_close_on_error (r : response) (m : string) :
  kept_after_close r (snd (on_error r m)).
Proof.
  intros E. unfold on_error.
  destruct (r_committed r); cbn [snd]; [cbn; auto|].
  destruct (r_ended r); cbn; [auto|].
  split; [exact E|]. rewrite records_app. cbn. apply app_nil_r.
Qed.

Lemma after_close_session_tick (i : nat) (a : archive) (r : response) :
  kept_after_close r (t_response (session_tick i a r)).
Proof.
  unfold session_tick. destruct (a_ended a); [apply after_close_refl|].
  destruct (a_queue a) as [|[name source [[|] data|]|m] q]; cbn [t_response].
  - destruct (a_finalized a); [|apply after_close_refl].
    destruct (a_sealed a); cbn [t_response];
      [apply after_close_on_end | apply after_close_on_data].
  - apply after_close_on_data.
  - eapply after_close_trans; [apply after_close_on_data | apply after_close_on_error].
  - apply after_close_on_data.
  - apply after_close_on_error.
Qed.

(** X2.  Once the response has closed, nothing of the archive is written to
    it any more: along every run after the close, the archive records in its
    body are the ones that were there at the close. *)
Theorem no_archive_bytes_after_close (w : world) (tr : list stimulus) (i : nat)
    (r : response) :
  reachable w ->
  responses w !! i = Some r ->
  r_closed r = true ->
  exists r', responses (snd (run tr w)) !! i = Some r' /\
             r_closed r' = true /\
             filter (fun v => is_record v = true) (r_body r') =
             filter (fun v => is_record v = true) (r_body r).
Proof.
  intros Hw Hr Hclosed. apply reachable_wf in Hw.
  destruct (response_history kept_after_close) with (tr := tr) (w := w) (i := i) (r := r)
    as (r' & Hr' & HR); try assumption.
  - apply after_close_refl.
  - apply after_close_trans.
  - intros. apply after_close_session_tick.
  - intros j a r0 _ _ E. unfold session_close. rewrite E. cbn. auto.
  - exists r'. split; [exact Hr' | apply HR, Hclosed].
Qed.

(** X2 at work on [ex_two]: the response closed after the first file; two
    more archiver turns follow. *)
Lemma no_archive_bytes_after_close_witness :
  exists r', responses (snd (run [Tick 0; Tick 0]
                             (snd (run [Incoming; Tick 0; Close 0] (boot ex_two)))))
               !! 0%nat = Some r' /\
             r_closed r' = true /\
             filter (fun v => is_record v = true) (r_body r') =
             filter (fun v => is_record v = true)
                    (r_body (closed_response
                               (appended (fresh_response 0)
                                  (VBuffer (FileRecord "a.txt" [Byte.x68; Byte.x69]))))).
Proof.
  apply (no_archive_bytes_after_close
           (snd (run [Incoming; Tick 0; Close 0] (boot ex_two))) [Tick 0; Tick 0] 0).
  - apply reachable_run, reachable_boot.
  - vm_compute. reflexivity.
  - reflexivity.
Defined.

(** ** What a turn can throw *)

Lemma session_tick_result (i : nat) (a : archive) (r : response) :
  t_result (session_tick i a r) = Ok tt \/
  (t_result (session_tick i a r) = Throw ERR_HTTP_HEADERS_SENT /\
   exists m, head_failure (a_queue a) = Some m).
Proof.
  unfold session_tick. destruct (a_ended a); [auto|].
  destruct (a_queue a) as [|[name source [[|] data|]|m] q]; cbn [t_result]; auto.
  - destruct (a_finalized a); [destruct (a_sealed a)|]; auto.
  - unfold on_error. destruct (r_committed _); cbn [fst]; eauto.
  - unfold on_error. destruct (r_committed r); cbn [fst]; eauto.
Qed.

Lemma session_close_result (i : nat) (a : archive) (r : response) :
  t_result (session_close i a r) = Ok tt \/
  (t_result (session_close i a r) = Throw (ReferenceError "res") /\ r_closed r = false).
Proof. unfold session_close. destruct (r_closed r); cbn [t_result]; auto. Qed.

Lemma step_result (s : stimulus) (w : world) :
  wf w ->
  fst (step s w) = Ok tt \/ exists e, fst (step s w) = Throw e /\ expected_escape e.
Proof.
  intros Hw. destruct s as [|i|i|fs].
  - left. rewrite incoming_spec by apply (wf_dom w Hw). reflexivity.
  - destruct (archives w !! i) as [a|] eqn:Ha.
    + destruct (tick_session w i a Hw Ha) as (r & Hr & ->). cbn [fst].
      destruct (session_tick_result i a r) as [-> | [-> _]]; [left; reflexivity|].
      right. eexists. split; [reflexivity|]. right. reflexivity.
    + left. rewrite tick_absent by assumption. reflexivity.
  - destruct (responses w !! i) as [r|] eqn:Hr.
    + destruct (close_session w i r Hw Hr) as (a & Ha & ->). cbn [fst].
      destruct (session_close_result i a r) as [-> | [-> _]]; [left; reflexivity|].
      right. eexists. split; [reflexivity|]. left. reflexivity.
    + left. rewrite close_absent by assumption. reflexivity.
  - left. reflexivity.
Qed.

Lemma run_escapes (tr : list stimulus) :
  forall w, wf w -> List.Forall expected_escape (fst (run tr w)).
Proof.
  induction tr as [|s tr IH]; intros w Hw; [constructor|].
  cbn [run]. pose proof (step_result s w Hw) as Hs. pose proof (wf_step s w Hw) as Hw'.
  destruct (step s w) as [[u|e] w1]; cbn [fst snd] in *.
  - apply IH, Hw'.
  - specialize (IH w1 Hw'). destruct (run tr w1) as [es w2]. cbn [fst] in *.
    constructor; [|exact IH].
    destruct Hs as [Hs|(e' & [= <-] & He)]; [discriminate | exact He].
Qed.

(** X3.  Which turn can throw what.  Whatever the directory holds and
    whatever the stimuli so far: the turn of the handler itself never
    throws, and neither does a change of the directory; a turn of the
    archiver throws only [ERR_HTTP_HEADERS_SENT], and only when the entry at
    the head of the queue fails, which is when the handler's error listener
    runs; the close of a response throws only the [ReferenceError] for
    [res], and only when the response closes for the first time, which is
    when the handler's close listener runs.  So nothing else ever leaves a
    turn: nothing is written to an ended response, no method is called on a
    value that lacks it, and no ['error'] event goes unheard. *)
Theorem only_two_exceptions_escape (fs : dirlist) (tr : list stimulus) :
  fst (step Incoming (snd (run tr (boot fs)))) = Ok tt /\
  (forall fs', fst (step (FsChange fs') (snd (run tr (boot fs)))) = Ok tt) /\
  (forall i e, fst (step (Tick i) (snd (run tr (boot fs)))) = Throw e ->
               e = ERR_HTTP_HEADERS_SENT /\
               exists a m, archives (snd (run tr (boot fs))) !! i = Some a /\
                           head_failure (a_queue a) = Some m) /\
  (forall i e, fst (step (Close i) (snd (run tr (boot fs)))) = Throw e ->
               e = ReferenceError "res" /\
               exists r, responses (snd (run tr (boot fs))) !! i = Some r /\
                         r_closed r = false) /\
  List.Forall expected_escape (fst (run tr (boot fs))).
Proof.
  pose proof (wf_run tr (boot fs) (wf_boot fs)) as Hw.
  set (w := snd (run tr (boot fs))) in *. conjs.
  - rewrite incoming_spec by apply (wf_dom w Hw). reflexivity.
  - intros fs'. reflexivity.
  - intros i e. destruct (archives w !! i) as [a|] eqn:Ha.
    + destruct (tick_session w i a Hw Ha) as (r & Hr & ->). cbn [fst].
      destruct (session_tick_result i a r) as [-> | [-> (m & Hm)]]; [discriminate|].
      intros [= <-]. split; [reflexivity|]. exists a, m. auto.
    + rewrite tick_absent by assumption. discriminate.
  - intros i e. destruct (responses w !! i) as [r|] eqn:Hr.
    + destruct (close_session w i r Hw Hr) as (a & Ha & ->). cbn [fst].
      destruct (session_close_result i a r) as [-> | [-> Hopen]]; [discriminate|].
      intros [= <-]. split; [reflexivity|]. exists r. auto.
    + rewrite close_absent by assumption. discriminate.
  - apply run_escapes, wf_boot.
Qed.



Lemma forallb_snoc (l : list value) (v : value) :
  forallb is_record (l ++ [v]) = forallb is_record l && is_record v.
Proof. rewrite forallb_app. cbn. rewrite andb_true_r. reflexivity. Qed.

Lemma shape_on_data (i : nat) (a : archive) (r : response) (c : chunk) :
  wf_response i r -> body_shape r -> body_shape (on_data i a r c).
Proof.
  intros Hr Hs. unfold on_data.
  destruct (forwards i a r) eqn:Ef; [|exact Hs].
  destruct (r_closed r); [exact Hs|].
  pose proof (forwards_open i a r Ef) as Hopen.
  unfold body_shape in *. cbn. unfold commit.
  destruct (r_committed r) as [s|] eqn:E.
  - destruct Hs as [[-> Hb]|[-> _]].
    + left. split; [reflexivity|]. rewrite forallb_app, Hb. destruct c; reflexivity.
    + destruct (wr_error i r Hr E) as (Hended & _). congruence.
  - destruct (wr_untouched i r Hr E) as (_ & _ & _ & ->).
    left. split; [reflexivity|]. rewrite Hs. destruct c; reflexivity.
Qed.

Lemma shape_on_end (i : nat) (a : archive) (r : response) :
  wf_response i r -> body_shape r -> body_shape (on_end i a r).
Proof.
  intros Hr Hs. unfold on_end.
  destruct (forwards i a r) eqn:Ef; [|exact Hs].
  unfold body_shape in *. cbn. unfold commit.
  destruct (r_committed r) as [s|] eqn:E; [exact Hs|].
  destruct (wr_untouched i r Hr E) as (_ & _ & _ & ->).
  left. split; [reflexivity|]. rewrite Hs. reflexivity.
Qed.

Lemma shape_on_error (i : nat) (r : response) (m : string) :
  wf_response i r -> body_shape r -> body_shape (snd (on_error r m)).
Proof.
  intros Hr Hs. unfold on_error, body_shape in *.
  destruct (r_committed r) as [s|] eqn:E; cbn [snd].
  - cbn. exact Hs.
  - destruct (wr_untouched i r Hr E) as (_ & -> & _ & _). cbn. rewrite Hs.
    right. split; [reflexivity|]. exists m. reflexivity.
Qed.

Lemma shape_session_tick (i : nat) (a : archive) (r : response) :
  wf_response i r -> body_shape r -> body_shape (t_response (session_tick i a r)).
Proof.
  intros Hr Hs. unfold session_tick. destruct (a_ended a); [exact Hs|].
  destruct (a_queue a) as [|[name source [[|] data|]|m] q]; cbn [t_response].
  - destruct (a_finalized a); [|exact Hs].
    destruct (a_sealed a); cbn [t_response];
      [apply shape_on_end | apply shape_on_data]; assumption.
  - apply shape_on_data; assumption.
  - apply (shape_on_error i); [apply wf_on_data | apply shape_on_data]; assumption.
  - apply shape_on_data; assumption.
  - apply (shape_on_error i); assumption.
Qed.

Lemma body_shape_holds (w : world) (i : nat) (r : response) :
  reachable w -> responses w !! i = Some r -> body_shape r.
Proof.
  intros Hw Hr. revert w i r Hw Hr. apply (response_invariant body_shape).
  - intros i. reflexivity.
  - intros i a r _ Hr Hs. apply shape_session_tick; assumption.
  - intros i a r _ _ Hs. unfold session_close.
    destruct (r_closed r); cbn [t_response]; exact Hs.
Qed.

(** X5.  A response is never a mix of archive and error.  In every world
    the loop reaches, a response has no body while nothing went out; under
    status 200 its body is archive records only; under status 500 it is the
    one JSON error object; and no other status ever goes out. *)
Theorem body_is_archive_or_error (w : world) (i : nat) (r : response) :
  reachable w ->
  responses w !! i = Some r ->
  (r_committed r = None /\ r_body r = []) \/
  (r_committed r = Some 200 /\ forallb is_record (r_body r) = true) \/
  (r_committed r = Some 500 /\ exists m, r_body r = [VObject [("error", VStr m)]]).
Proof.
  intros Hw Hr. pose proof (body_shape_holds w i r Hw Hr) as Hs.
  unfold body_shape in Hs. destruct (r_committed r) as [s|]; [|auto].
  destruct Hs as [[-> Hb]|[-> Hb]]; auto.
Qed.

(** X5 at work on [ex_file], where [Test] is a regular file: the response
    of the failed request. *)
Lemma body_is_archive_or_error_witness :
  (r_committed (snd (on_error (fresh_response 0) (not_a_directory "Test/"))) = None /\
   r_body (snd (on_error (fresh_response 0) (not_a_directory "Test/"))) = []) \/
  (r_committed (snd (on_error (fresh_response 0) (not_a_directory "Test/"))) = Some 200 /\
   forallb is_record
     (r_body (snd (on_error (fresh_response 0) (not_a_directory "Test/")))) = true) \/
  (r_committed (snd (on_error (fresh_response 0) (not_a_directory "Test/"))) = Some 500 /\
   exists m, r_body (snd (on_error (fresh_response 0) (not_a_directory "Test/"))) =
             [VObject [("error", VStr m)]]).
Proof.
  apply (body_is_archive_or_error (snd (run [Incoming; Tick 0] (boot ex_file))) 0).
  - apply reachable_run, reachable_boot.
  - vm_compute. reflexivity.
Defined.

(** X6.  An empty [Test/] directory is no error: the request is answered
    under status 200 with an archive that has no entry, and the stream is
    ended; nothing escapes. *)
Theorem empty_directory_is_served (w : world) :
  reachable w ->
  child "Test" (cwd w) = Some (Dir []) ->
  exists w', run (request_trace (fresh (dom (responses w))) 0) w = ([], w') /\
             exists r, responses w' !! fresh (dom (responses w)) = Some r /\
                       r_committed r = Some 200 /\ r_ended r = true /\
                       r_body r = [VBuffer (CentralDirectory [])].
Proof.
  intros Hw Hc. apply reachable_wf in Hw.
  assert (all_records (directory_tasks (cwd w) "Test/" DestFalse) = Some []) as Hrs.
  { rewrite (directory_tasks_test (cwd w) [] Hc). reflexivity. }
  destruct (serve_ok w [] Hw Hrs) as (w' & Hrun & _ & _ & Hr & _ & _).
  exists w'. split; [exact Hrun|]. eexists. split; [exact Hr|]. auto.
Qed.

(** X6 at work on [ex_empty]. *)
Lemma empty_directory_is_served_witness :
  exists w', run (request_trace (fresh (dom (responses (boot ex_empty)))) 0) (boot ex_empty) =
               ([], w') /\
             exists r, responses w' !! fresh (dom (responses (boot ex_empty))) = Some r /\
                       r_committed r = Some 200 /\ r_ended r = true /\
                       r_body r = [VBuffer (CentralDirectory [])].
Proof.
  apply (empty_directory_is_served (boot ex_empty)).
  - apply reachable_boot.
  - reflexivity.
Defined.

(** X7.  A request that is served in full and then closed leaves two lines
    on the console, both ["Archive wrote %d bytes"] and both with the number
    [archive.pointer()] returns once the archive has ended: the first from
    the ['end'] listener of the archive, the second from the ['close']
    listener of the response, which logs before it fails. *)
Theorem served_request_logs_twice (w : world) (rs : list (string * chunk)) :
  reachable w ->
  all_records (directory_tasks (cwd w) "Test/" DestFalse) = Some rs ->
  exists a,
    archives (snd (run (request_trace (fresh (dom (responses w))) (length rs)) w))
      !! fresh (dom (responses w)) = Some a /\
    a_ended a = true /\
    console (snd (run (request_trace (fresh (dom (responses w))) (length rs) ++
                       [Close (fresh (dom (responses w)))]) w)) =
      console w ++ [("Archive wrote %d bytes", [VNum (a_pointer a)]);
                    ("Archive wrote %d bytes", [VNum (a_pointer a)])].
Proof.
  intros Hw Hrs. apply reachable_wf in Hw.
  destruct (serve_ok w rs Hw Hrs) as (w1 & Hrun & Hw1 & Ha1 & Hr1 & Hco & _).
  rewrite run_app, Hrun. cbn [snd]. rewrite run_cons. cbn [run snd].
  set (n := fresh (dom (responses w))) in *.
  exists (sealed_archive n rs). split; [exact Ha1|]. split; [reflexivity|].
  destruct (close_session w1 n _ Hw1 Hr1) as (a & Ha & ->).
  assert (a = sealed_archive n rs) as -> by congruence.
  unfold put, session_close. cbn. rewrite Hco, <- app_assoc. reflexivity.
Qed.

(** X7 at work on [ex_tree]. *)
Lemma served_request_logs_twice_witness :
  exists a,
    archives (snd (run (request_trace (fresh (dom (responses (boot ex_tree)))) 3)
                       (boot ex_tree)))
      !! fresh (dom (responses (boot ex_tree))) = Some a /\
    a_ended a = true /\
    console (snd (run (request_trace (fresh (dom (responses (boot ex_tree)))) 3 ++
                       [Close (fresh (dom (responses (boot ex_tree))))]) (boot ex_tree))) =
      console (boot ex_tree) ++ [("Archive wrote %d bytes", [VNum (a_pointer a)]);
                                 ("Archive wrote %d bytes", [VNum (a_pointer a)])].
Proof.
  apply (served_request_logs_twice (boot ex_tree) ex_tree_records).
  - apply reachable_boot.
  - vm_compute. reflexivity.
Defined.

(** ** When [Test] is no directory *)

(** X10.  When [Test] is a regular file the scan of the directory fails
    before anything is written, and this failure is answered as the handler
    means it: under status 500, with the JSON body [{error: message}] and
    nothing else, the response ended, still with the attachment header; and
    nothing escapes. *)
Theorem regular_file_is_answered_500 (w : world) (rd : bool) (d : bytes) :
  reachable w ->
  child "Test" (cwd w) = Some (File rd d) ->
  exists w', run [Incoming; Tick (fresh (dom (responses w)))] w = ([], w') /\
             exists r, responses w' !! fresh (dom (responses w)) = Some r /\
                       r_status r = 500 /\ r_committed r = Some 500 /\ r_ended r = true /\
                       (exists m, r_body r = [VObject [("error", VStr m)]]) /\
                       r_headers r !! "Content-Disposition" =
                         Some (content_disposition "folder.zip").
Proof.
  intros Hw Hc. apply reachable_wf in Hw.
  pose proof (incoming_spec w (wf_dom w Hw)) as Hin.
  set (n := fresh (dom (responses w))) in *.
  pose proof (wf_after _ _ _ _ Hin Hw) as Hw1.
  set (w1 := World (<[n := fresh_archive (cwd w) n]> (archives w))
                   (<[n := fresh_response n]> (responses w)) (console w) (cwd w)) in *.
  assert (archives w1 !! n = Some (fresh_archive (cwd w) n)) as Ha1
    by (unfold w1; cbn; apply lookup_insert_eq).
  destruct (tick_session w1 n _ Hw1 Ha1) as (r1 & Hr1 & Hstep).
  assert (r1 = fresh_response n) as ->.
  { unfold w1 in Hr1. cbn in Hr1. rewrite lookup_insert_eq in Hr1. congruence. }
  assert (session_tick n (fresh_archive (cwd w) n) (fresh_response n) =
          Turn (Ok tt) (dequeued (fresh_archive (cwd w) n) [] None)
               (snd (on_error (fresh_response n) (not_a_directory "Test/"))) []) as Et.
  { unfold session_tick, fresh_archive. cbn [a_ended a_queue].
    rewrite (directory_tasks_file (cwd w) rd d Hc). reflexivity. }
  rewrite Et in Hstep. cbn [t_result] in Hstep.
  eexists. split.
  - cbn [run]. rewrite Hin, Hstep. reflexivity.
  - eexists. split; [unfold put; cbn [responses t_response]; apply lookup_insert_eq|].
    cbn. conjs; try reflexivity. eexists. reflexivity.
Qed.

(** X10 at work on [ex_file]. *)
Lemma regular_file_is_answered_500_witness :
  exists w', run [Incoming; Tick (fresh (dom (responses (boot ex_file))))] (boot ex_file) =
               ([], w') /\
             exists r, responses w' !! fresh (dom (responses (boot ex_file))) = Some r /\
                       r_status r = 500 /\ r_committed r = Some 500 /\ r_ended r = true /\
                       (exists m, r_body r = [VObject [("error", VStr m)]]) /\
                       r_headers r !! "Content-Disposition" =
                         Some (content_disposition "folder.zip").
Proof.
  apply (regular_file_is_answered_500 (boot ex_file) true [Byte.x68; Byte.x69]).
  - apply reachable_boot.
  - reflexivity.
Defined.

(** X11.  When there is no [Test] at all, that is no error either: nothing
    is queued, and the request is answered like one for an empty directory,
    under status 200 with an archive that has no entry. *)
Theorem missing_directory_is_served (w : world) :
  reachable w ->
  child "Test" (cwd w) = None ->
  exists w', run (request_trace (fresh (dom (responses w))) 0) w = ([], w') /\
             exists r, responses w' !! fresh (dom (responses w)) = Some r /\
                       r_committed r = Some 200 /\ r_ended r = true /\
                       r_body r = [VBuffer (CentralDirectory [])].
Proof.
  intros Hw Hc. apply reachable_wf in Hw.
  assert (all_records (directory_tasks (cwd w) "Test/" DestFalse) = Some []) as Hrs.
  { rewrite (directory_tasks_missing (cwd w) Hc). reflexivity. }
  destruct (serve_ok w [] Hw Hrs) as (w' & Hrun & _ & _ & Hr & _ & _).
  exists w'. split; [exact Hrun|]. eexists. split; [exact Hr|]. auto.
Qed.

(** X11 at work on [ex_missing]. *)
Lemma missing_directory_is_served_witness :
  exists w', run (request_trace (fresh (dom (responses (boot ex_missing)))) 0)
                 (boot ex_missing) = ([], w') /\
             exists r, responses w' !! fresh (dom (responses (boot ex_missing))) = Some r /\
                       r_committed r = Some 200 /\ r_ended r = true /\
                       r_body r = [VBuffer (CentralDirectory [])].
Proof.
  apply (missing_directory_is_served (boot ex_missing)).
  - apply reachable_boot.
  - reflexivity.
Defined.

(** ** The informational route *)

(** X9.  [GET /] is answered at once and by itself: under status 200, as
    JSON ([application/json; charset=utf-8], no attachment header), with the
    body [{Name: 'Fahim', requestDetails: JSON.stringify(req.headers)}], the
    headers echoed as one string; the response is ended in the handler's own
    turn, no archiver is built, no listener is left behind, and no other
    response is touched.  This holds in every state of the heap. *)
Theorem home_answers_json (stringify : value -> value) (fields : list (string * value))
    (w : world) :
  fst (incoming_home stringify (VObject fields) w) = Ok tt /\
  archives (snd (incoming_home stringify (VObject fields) w)) = archives w /\
  console (snd (incoming_home stringify (VObject fields) w)) = console w /\
  (forall i, i <> fresh (dom (responses w)) ->
             responses (snd (incoming_home stringify (VObject fields) w)) !! i =
             responses w !! i) /\
  exists r, responses (snd (incoming_home stringify (VObject fields) w))
              !! fresh (dom (responses w)) = Some r /\
            r_committed r = Some 200 /\ r_ended r = true /\ r_listeners r = [] /\
            r_headers r !! "Content-Type" = Some "application/json; charset=utf-8" /\
            r_headers r !! "Content-Disposition" = None /\
            r_body r = [VObject [("Name", VStr "Fahim");
                                 ("requestDetails",
                                  stringify match lookup_var "headers" fields with
                                            | Some h => h
                                            | None => VUndefined
                                            end)]].
Proof.
  destruct w as [am rm co fs].
  unfold incoming_home, home, member, json_stringify.
  exec. rewrite lookup_singleton_ne by discriminate. exec.
  conjs; try reflexivity.
  - intros i Hne. rewrite lookup_insert_ne by congruence. reflexivity.
  - eexists. split; [reflexivity|]. cbn [r_committed r_ended r_listeners r_headers r_body].
    conjs; reflexivity.
Qed.
